(** * Loss functions of [ivy.functional.ivy.experimental.losses]

    A shallow embedding of [binary_cross_entropy_with_logits], [mse_loss]
    and [mae_loss], together with the properties their specification
    states about them.

    The three functions are written against the array primitives of the
    host framework (sigmoid, log, clip, abs, square, mean, the arithmetic
    operators with broadcasting), the validation helper and the shared
    reduction helper.  Those live elsewhere in the repository; they are
    modelled here from what the specification says of them, and the
    unweighted cross-entropy primitive, of which it gives no formula, is
    a parameter.

    Numbers are idealised: a tensor entry is a real number, an infinity,
    or the undefined value a backend produces where arithmetic has no
    answer (the mean of no elements, the difference of two infinities).
    Rounding and fixed-width integers are not modelled, so nothing here
    speaks of overflow, underflow or wrap-around. *)

From Stdlib Require Import Reals Lra Lia List.
From stdpp Require Import base option list strings gmap.

Local Open Scope R_scope.

(** ** Scalars *)

Module Scalar.

(** Modelled from the spec: the numeric entries of a tensor, which the
    host framework supplies.  An entry is a number, an infinity of either
    sign, or the undefined value ("nan") that arithmetic yields where it
    has no answer, as in [inf - inf], [0 * inf] and [0 / 0]. *)
Inductive scalar : Type :=
| NaN
| Inf (positive : bool)
| Fin (x : R).

(** The sign of a number, when it has one. *)
Definition sign_of (x : R) : option bool :=
  if Rlt_dec 0 x then Some true
  else if Rlt_dec x 0 then Some false
  else None.

Definition neg (a : scalar) : scalar :=
  match a with
  | NaN => NaN
  | Inf s => Inf (negb s)
  | Fin x => Fin (- x)
  end.

Definition add (a b : scalar) : scalar :=
  match a, b with
  | Fin x, Fin y => Fin (x + y)
  | Inf s, Fin _ | Fin _, Inf s => Inf s
  | Inf s, Inf s' => if Bool.eqb s s' then Inf s else NaN
  | _, _ => NaN
  end.

Definition sub (a b : scalar) : scalar :=
  match a, b with
  | Fin x, Fin y => Fin (x - y)
  | Inf s, Fin _ => Inf s
  | Fin _, Inf s => Inf (negb s)
  | Inf s, Inf s' => if Bool.eqb s s' then NaN else Inf s
  | _, _ => NaN
  end.

(** An infinity of sign [s] times the number [y]. *)
Definition inf_times (s : bool) (y : R) : scalar :=
  match sign_of y with
  | Some t => Inf (Bool.eqb s t)
  | None => NaN
  end.

Definition mul (a b : scalar) : scalar :=
  match a, b with
  | Fin x, Fin y => Fin (x * y)
  | Inf s, Fin y | Fin y, Inf s => inf_times s y
  | Inf s, Inf s' => Inf (Bool.eqb s s')
  | _, _ => NaN
  end.

Definition abs (a : scalar) : scalar :=
  match a with
  | NaN => NaN
  | Inf _ => Inf true
  | Fin x => Fin (Rabs x)
  end.

Definition square (a : scalar) : scalar :=
  match a with
  | NaN => NaN
  | Inf _ => Inf true
  | Fin x => Fin (x * x)
  end.

(** Modelled from the spec: [ivy.sigmoid] on one entry, the logistic
    function that turns a logit into a probability; its limits at the
    infinities are 1 and 0. *)
Definition sigmoid (a : scalar) : scalar :=
  match a with
  | NaN => NaN
  | Inf true => Fin 1
  | Inf false => Fin 0
  | Fin x => Fin (1 / (1 + exp (- x)))
  end.

(** Modelled from the spec: [ivy.log] on one entry, the natural
    logarithm: minus infinity at zero, undefined below it. *)
Definition log (a : scalar) : scalar :=
  match a with
  | NaN => NaN
  | Inf true => Inf true
  | Inf false => NaN
  | Fin x =>
      if Rlt_dec 0 x then Fin (ln x)
      else if Rlt_dec x 0 then NaN
      else Inf false
  end.

(** Modelled from the spec: [ivy.clip] on one entry, which brings [x]
    into [[lo, hi]]: the larger of [x] and [lo], capped at [hi]. *)
Definition clip (lo hi : R) (a : scalar) : scalar :=
  match a with
  | NaN => NaN
  | Inf true => Fin hi
  | Inf false => Fin (Rmin lo hi)
  | Fin x => Fin (Rmin (Rmax x lo) hi)
  end.

(** Division of the sum of the entries of a tensor by their number.  A
    count of zero goes with the sum of no entries, which is zero, and
    [0 / 0] is undefined. *)
Definition div_count (a : scalar) (n : nat) : scalar :=
  match n with
  | O => NaN
  | S _ =>
      match a with
      | Fin x => Fin (x / INR n)
      | _ => a
      end
  end.

Definition sum (l : list scalar) : scalar := fold_left add l (Fin 0).

Definition is_fin (a : scalar) : Prop := exists x, a = Fin x.

End Scalar.

(** ** Tensors *)

Module Tensor.
Import Scalar.

(** Modelled from the spec: the tensor of the host framework, an
    n-dimensional numeric array, as its shape and its entries in
    row-major order. *)
Record tensor : Type := mkTensor { shape : list nat; data : list scalar }.

Definition prod_shape (s : list nat) : nat := fold_right Nat.mul 1%nat s.

Definition numel (t : tensor) : nat := prod_shape (shape t).

Definition wf (t : tensor) : Prop := length (data t) = numel t.

Definition finite (t : tensor) : Prop := Forall is_fin (data t).

(** A Python number used as an operand: a tensor of rank zero. *)
Definition of_scalar (x : scalar) : tensor := mkTensor [] [x].

(** *** Broadcasting

    Modelled from the spec: the broadcasting semantics of the host's
    arithmetic.  Two shapes are aligned on the right; two axes agree when
    they are equal or one of them has length one, which is then
    repeated. *)

(** Ranks are aligned on the right; the shorter shape is padded with
    ones on the left. *)
Definition pad_shape (n : nat) (s : list nat) : list nat :=
  repeat 1%nat (n - length s) ++ s.

Definition broadcast_dim (a b : nat) : option nat :=
  if Nat.eqb a b then Some a
  else if Nat.eqb a 1 then Some b
  else if Nat.eqb b 1 then Some a
  else None.

Fixpoint broadcast_aligned (s1 s2 : list nat) : option (list nat) :=
  match s1, s2 with
  | [], [] => Some []
  | a :: s1', b :: s2' =>
      match broadcast_dim a b, broadcast_aligned s1' s2' with
      | Some d, Some s => Some (d :: s)
      | _, _ => None
      end
  | _, _ => None
  end.

Definition broadcast_shapes (s1 s2 : list nat) : option (list nat) :=
  let n := Nat.max (length s1) (length s2) in
  broadcast_aligned (pad_shape n s1) (pad_shape n s2).

(** The common shape of three operands, taken left to right. *)
Definition broadcast_shapes3 (s1 s2 s3 : list nat) : option (list nat) :=
  match broadcast_shapes s1 s2 with
  | Some s12 => broadcast_shapes s12 s3
  | None => None
  end.

(** [compat src tgt]: a shape that can be laid out in [tgt], axis by
    axis either equal or of length one. *)
Definition compat (src tgt : list nat) : Prop :=
  Forall2 (fun a b => a = b \/ a = 1%nat) src tgt.

(** [chunks n k l]: the first [k] consecutive blocks of [n] entries. *)
Fixpoint chunks {A} (n k : nat) (l : list A) : list (list A) :=
  match k with
  | O => []
  | S k' => firstn n l :: chunks n k' (skipn n l)
  end.

(** [expand src tgt l]: the entries of a tensor of shape [src] laid out
    in shape [tgt], repeating every axis of length one. *)
Fixpoint expand {A} (src tgt : list nat) (l : list A) : list A :=
  match src, tgt with
  | a :: src', b :: tgt' =>
      if Nat.eqb a b
      then concat (map (expand src' tgt') (chunks (prod_shape src') a l))
      else concat (repeat (expand src' tgt' l) b)
  | _, _ => l
  end.

Definition broadcast_to (s : list nat) (t : tensor) : list scalar :=
  expand (pad_shape (length s) (shape t)) s (data t).

(** Modelled from the spec: an elementwise binary operation of the host
    on two tensors; [None] when the shapes do not broadcast. *)
Definition map2 (f : scalar -> scalar -> scalar) (t1 t2 : tensor) : option tensor :=
  match broadcast_shapes (shape t1) (shape t2) with
  | Some s => Some (mkTensor s (zip_with f (broadcast_to s t1) (broadcast_to s t2)))
  | None => None
  end.

(** Modelled from the spec: an elementwise unary operation of the
    host. *)
Definition map1 (f : scalar -> scalar) (t : tensor) : tensor :=
  mkTensor (shape t) (map f (data t)).

(** *** Reductions over all axes *)

Definition sum_data (t : tensor) : scalar := Scalar.sum (data t).

Definition average (t : tensor) : scalar := div_count (sum_data t) (numel t).

(** Modelled from the spec: [ivy.sum(t)] with [axis=None], the sum of
    all entries as a tensor of rank zero. *)
Definition sum_all (t : tensor) : tensor := of_scalar (sum_data t).

(** Modelled from the spec: [ivy.mean(t)] with [axis=None], the mean of
    all entries as a tensor of rank zero. *)
Definition mean_all (t : tensor) : tensor := of_scalar (average t).

(** Modelled from the spec: [ivy.mean(t, keepdims=True)], the mean over
    all entries in a reduced shape that keeps the rank: one entry, every
    axis of length one. *)
Definition mean_keepdims (t : tensor) : tensor :=
  mkTensor (map (fun _ => 1%nat) (shape t)) [average t].

End Tensor.

Import Scalar Tensor.

(** ** Effects: the array store, the log of backend calls, exceptions *)

Module Eff.

(** The identity of an array object that a caller passes as [out]. *)
Definition loc : Type := positive.

(** One entry per call into the backend. *)
Inductive event : Type :=
| EvSigmoid | EvClip | EvLog | EvSquare | EvAbs
| EvNeg | EvAdd | EvSub | EvMul
| EvMean | EvSum.

Record state : Type := mkState { heap : gmap loc tensor; trace : list event }.

Inductive exn : Type :=
| ValueError   (* failed validation of an argument *)
| ShapeError.  (* operands that do not broadcast *)

Inductive outcome (A : Type) : Type :=
| Ok (a : A)
| Raise (e : exn).
Arguments Ok {A} a.
Arguments Raise {A} e.

(** A computation runs from a state to an outcome and the state it
    leaves behind; an exception keeps the effects that preceded it. *)
Definition M (A : Type) : Type := state -> outcome A * state.

Definition ret {A} (a : A) : M A := fun s => (Ok a, s).

Definition bind {A B} (m : M A) (k : A -> M B) : M B :=
  fun s =>
    match m s with
    | (Ok a, s') => k a s'
    | (Raise e, s') => (Raise e, s')
    end.

Definition raise {A} (e : exn) : M A := fun s => (Raise e, s).

Definition emit (e : event) : M unit :=
  fun s => (Ok tt, mkState (heap s) (trace s ++ [e])).

Definition store (l : loc) (t : tensor) : M unit :=
  fun s => (Ok tt, mkState (<[l := t]> (heap s)) (trace s)).

(** What a function hands back: a new array, or the caller's buffer. *)
Inductive array : Type :=
| Fresh (t : tensor)
| Buffer (l : loc).

(** The contents of a returned array in a given state. *)
Definition contents (s : state) (a : array) : option tensor :=
  match a with
  | Fresh t => Some t
  | Buffer l => heap s !! l
  end.

End Eff.

Import Eff.

Declare Scope eff_scope.
Delimit Scope eff_scope with eff.
Notation "'do' x <- m ; k" := (bind m (fun x => k))
  (at level 10, x name, m at level 100, k at level 200) : eff_scope.
Notation "'do_' m ; k" := (bind m (fun _ => k))
  (at level 10, m at level 100, k at level 200) : eff_scope.
Local Open Scope eff_scope.

(** ** Backend primitives *)

Module Backend.

(** Modelled from the spec: a call into the backend.  It is logged,
    then computes; operands that do not broadcast raise, which the
    host's exception layer hands on as an error. *)
Definition call (e : event) (r : option tensor) : M tensor :=
  do_ emit e;
  match r with
  | Some t => ret t
  | None => raise ShapeError
  end.

(** Modelled from the spec: [ivy.sigmoid], elementwise. *)
Definition ivy_sigmoid (x : tensor) : M tensor :=
  call EvSigmoid (Some (map1 sigmoid x)).

(** Modelled from the spec: [ivy.clip], elementwise with scalar bounds. *)
Definition ivy_clip (x : tensor) (x_min x_max : R) : M tensor :=
  call EvClip (Some (map1 (clip x_min x_max) x)).

(** Modelled from the spec: [ivy.log], elementwise. *)
Definition ivy_log (x : tensor) : M tensor :=
  call EvLog (Some (map1 log x)).

(** Modelled from the spec: [ivy.square], elementwise. *)
Definition ivy_square (x : tensor) : M tensor :=
  call EvSquare (Some (map1 square x)).

(** Modelled from the spec: [ivy.abs], elementwise. *)
Definition ivy_abs (x : tensor) : M tensor :=
  call EvAbs (Some (map1 abs x)).

(** Modelled from the spec: [ivy.mean(x, keepdims=True)]. *)
Definition ivy_mean_keepdims (x : tensor) : M tensor :=
  call EvMean (Some (mean_keepdims x)).

(** Modelled from the spec: [ivy.mean(x, axis=None)]. *)
Definition ivy_mean (x : tensor) : M tensor :=
  call EvMean (Some (mean_all x)).

(** Modelled from the spec: [ivy.sum(x, axis=None)]. *)
Definition ivy_sum (x : tensor) : M tensor :=
  call EvSum (Some (sum_all x)).

(** Modelled from the spec: the arithmetic operators of arrays, unary
    minus and the broadcasting [+], [-] and [*]. *)
Definition t_neg (x : tensor) : M tensor := call EvNeg (Some (map1 neg x)).
Definition t_add (x y : tensor) : M tensor := call EvAdd (map2 add x y).
Definition t_sub (x y : tensor) : M tensor := call EvSub (map2 sub x y).
Definition t_mul (x y : tensor) : M tensor := call EvMul (map2 mul x y).

(** The Python number [1] as an operand. *)
Definition one : tensor := of_scalar (Fin 1).

(** Modelled from the spec: the writing of a result into the output
    buffer when one is supplied; the buffer is then the array handed
    back.  That its shape suits the result is the caller's obligation
    and is not checked. *)
Definition deliver (out : option loc) (t : tensor) : M array :=
  match out with
  | Some l => do_ store l t; ret (Buffer l)
  | None => ret (Fresh t)
  end.

End Backend.

Import Backend.

(** ** The loss functions *)

Module Losses.

(** Modelled from the spec: [ivy.utils.assertions.check_elem_in_list],
    defined elsewhere in the repository.  A value outside the list fails
    validation with a value-error kind. *)
Definition check_elem_in_list (elem : string) (list : list string) : M unit :=
  if bool_decide (elem ∈ list) then ret tt else raise ValueError.

(** Modelled from the spec: the shared reduction helper
    [ivy.functional.ivy.losses._reduce_loss], defined elsewhere in the
    repository.  It returns the tensor unchanged for "none", its
    sum for "sum" and its mean for "mean", writing into the output
    buffer when one is supplied.  The three callers validate the mode
    first, so the last branch is only ever taken for "none". *)
Definition _reduce_loss (red : string) (loss : tensor) (axis : option nat)
    (out : option loc) : M array :=
  if String.eqb red "sum" then
    do r <- ivy_sum loss; deliver out r
  else if String.eqb red "mean" then
    do r <- ivy_mean loss; deliver out r
  else
    deliver out loss.

(** The list every function validates its [reduction] against. *)
Definition reductions : list string := ["none"; "sum"; "mean"]%string.

Section WithPrimitive.

(** [ivy.binary_cross_entropy], the primitive that the unweighted case
    delegates to.  It is defined elsewhere in the repository and the
    specification gives no formula for it, so it is a parameter. *)
Variable binary_cross_entropy :
  tensor -> tensor -> R -> string -> option loc -> M array.

(** [binary_cross_entropy_with_logits(true, pred, *, epsilon,
    pos_weight, reduction, out)]: validation, sigmoid, then either the
    weighted formula, whose operators run in Python's order of
    evaluation, followed by the reduction helper, or the primitive. *)
Definition binary_cross_entropy_with_logits (true_ pred : tensor)
    (epsilon : R) (pos_weight : option tensor) (reduction : string)
    (out : option loc) : M array :=
  do_ check_elem_in_list reduction reductions;
  do pred <- ivy_sigmoid pred;
  match pos_weight with
  | Some pos_weight =>
      do pred <- ivy_clip pred epsilon (1 - epsilon);
      do l1 <- ivy_log pred;
      do n1 <- t_neg l1;
      do m1 <- t_mul true_ n1;
      do m2 <- t_mul m1 pos_weight;
      do s1 <- t_sub one true_;
      do s2 <- t_sub one pred;
      do l2 <- ivy_log s2;
      do n2 <- t_neg l2;
      do m3 <- t_mul s1 n2;
      do a <- t_add m2 m3;
      do result <- t_neg a;
      _reduce_loss reduction result None out
  | None =>
      binary_cross_entropy true_ pred epsilon reduction out
  end.

End WithPrimitive.

(** [mse_loss(true, pred, *, reduction, out)]:
    [ivy.mean(ivy.square(true - pred), keepdims=True)], then the
    reduction helper. *)
Definition mse_loss (true_ pred : tensor) (reduction : string)
    (out : option loc) : M array :=
  do_ check_elem_in_list reduction reductions;
  do d <- t_sub true_ pred;
  do q <- ivy_square d;
  do result <- ivy_mean_keepdims q;
  _reduce_loss reduction result None out.

(** [mae_loss(true, pred, *, reduction, out)]:
    [ivy.mean(ivy.abs(true - pred), keepdims=True)], then the reduction
    helper. *)
Definition mae_loss (true_ pred : tensor) (reduction : string)
    (out : option loc) : M array :=
  do_ check_elem_in_list reduction reductions;
  do d <- t_sub true_ pred;
  do q <- ivy_abs d;
  do result <- ivy_mean_keepdims q;
  _reduce_loss reduction result None out.

End Losses.

Import Losses.

(** ** The three functions under one name *)

Inductive loss_fn : Type :=
| BCE (epsilon : R) (pos_weight : option tensor)
| MSE
| MAE.

Definition prim_t : Type := tensor -> tensor -> R -> string -> option loc -> M array.

Definition run_loss (prim : prim_t) (f : loss_fn) (true_ pred : tensor)
    (reduction : string) (out : option loc) : M array :=
  match f with
  | BCE epsilon pos_weight =>
      binary_cross_entropy_with_logits prim true_ pred epsilon pos_weight reduction out
  | MSE => mse_loss true_ pred reduction out
  | MAE => mae_loss true_ pred reduction out
  end.

(** ** What the specification says, as pure functions *)

Module Spec.

(** The reduction modes as the specification words them: the tensor
    itself, the sum of its entries, that sum divided by their number. *)
Definition reduce (red : string) (t : tensor) : tensor :=
  if String.eqb red "sum" then of_scalar (sum_data t)
  else if String.eqb red "mean" then of_scalar (div_count (sum_data t) (numel t))
  else t.

(** The mean over all entries of an elementwise function of the
    difference, every axis kept: the first stage of [mse_loss] and
    [mae_loss]. *)
Definition keepdims_mean_of (f : scalar -> scalar) (true_ pred : tensor) : option tensor :=
  d ← map2 sub true_ pred;
  Some (mean_keepdims (map1 f d)).

(** The probabilities of the weighted case. *)
Definition clipped_sigmoid (epsilon : R) (pred : tensor) : tensor :=
  map1 (clip epsilon (1 - epsilon)) (map1 sigmoid pred).

(** One entry of the weighted cross-entropy, from a label [t], a
    probability [p] and a weight [w]:
    [-(t * -log p * w + (1 - t) * -log (1 - p))]. *)
Definition weighted_entry (t p w : scalar) : scalar :=
  neg (add (mul (mul t (neg (log p))) w)
           (mul (sub (Fin 1) t) (neg (log (sub (Fin 1) p))))).

(** The same formula on tensors, each operator elementwise with
    broadcasting. *)
Definition weighted_loss (true_ p pos_weight : tensor) : option tensor :=
  m1 ← map2 mul true_ (map1 neg (map1 log p));
  m2 ← map2 mul m1 pos_weight;
  s1 ← map2 sub one true_;
  s2 ← map2 sub one p;
  m3 ← map2 mul s1 (map1 neg (map1 log s2));
  a ← map2 add m2 m3;
  Some (map1 neg a).

Fixpoint zip3_with {A B C D} (f : A -> B -> C -> D)
    (l1 : list A) (l2 : list B) (l3 : list C) : list D :=
  match l1, l2, l3 with
  | x :: l1', y :: l2', z :: l3' => f x y z :: zip3_with f l1' l2' l3'
  | _, _, _ => []
  end.

(** The contracts the unweighted primitive is expected to honour. *)

(** Its "sum" and "mean" results are the sum and the mean of its
    "none" result. *)
Definition reduction_contract (prim : prim_t) : Prop :=
  forall true_ p epsilon out s a s' v,
    prim true_ p epsilon "none"%string out s = (Ok a, s') ->
    contents s' a = Some v ->
    (exists a1 s1, prim true_ p epsilon "sum"%string out s = (Ok a1, s1)
                   /\ contents s1 a1 = Some (reduce "sum" v))
    /\ (exists a2 s2, prim true_ p epsilon "mean"%string out s = (Ok a2, s2)
                      /\ contents s2 a2 = Some (reduce "mean" v)).

(** With an output buffer it hands back that buffer, filled. *)
Definition out_contract (prim : prim_t) : Prop :=
  forall true_ p epsilon red l s a s',
    prim true_ p epsilon red (Some l) s = (Ok a, s') ->
    a = Buffer l /\ is_Some (heap s' !! l).

End Spec.

(** Modelled from the spec: [ivy.binary_cross_entropy], the unweighted
    primitive, defined elsewhere in the repository.  The specification
    gives no formula for its per-element loss, which stays a parameter,
    [entries].  What it does say is that the primitive is handed the same
    epsilon and reduction, that a reduction collapses a per-element loss
    tensor through the shared helper, and that the result is written
    into the output buffer when one is supplied. *)
Definition binary_cross_entropy (entries : tensor -> tensor -> R -> M tensor) : prim_t :=
  fun true_ pred epsilon reduction out =>
    do loss <- entries true_ pred epsilon;
    _reduce_loss reduction loss None out.

(** The textbook per-element cross-entropy on clipped probabilities,
    [-(log p * t + log (1 - p) * (1 - t))], with which the statements
    that are parametric in the entries are run. *)
Definition textbook_entries (true_ pred : tensor) (epsilon : R) : M tensor :=
  do pred <- ivy_clip pred epsilon (1 - epsilon);
  do l1 <- ivy_log pred;
  do m1 <- t_mul l1 true_;
  do s2 <- t_sub one pred;
  do l2 <- ivy_log s2;
  do s1 <- t_sub one true_;
  do m2 <- t_mul l2 s1;
  do a <- t_add m1 m2;
  t_neg a.

(** A reference instance of the unweighted primitive, used to exercise the
    statements that are parametric in it: clip, then
    [-(t * log p + (1 - t) * log (1 - p))], then the reduction. *)
Definition reference_bce : prim_t :=
  fun true_ pred epsilon reduction out =>
    do_ check_elem_in_list reduction reductions;
    do pred <- ivy_clip pred epsilon (1 - epsilon);
    do l1 <- ivy_log pred;
    do m1 <- t_mul l1 true_;
    do s2 <- t_sub one pred;
    do l2 <- ivy_log s2;
    do s1 <- t_sub one true_;
    do m2 <- t_mul l2 s1;
    do a <- t_add m1 m2;
    do r <- t_neg a;
    _reduce_loss reduction r None out.

(** ** Vocabulary of the statements *)

(** The state after further backend calls. *)
Definition logged (s : state) (es : list event) : state :=
  mkState (heap s) (trace s ++ es).

(** The array a delivery hands back and the state it leaves. *)
Definition delivered (out : option loc) (t : tensor) (s : state) : array * state :=
  match out with
  | Some l => (Buffer l, mkState (<[l := t]> (heap s)) (trace s))
  | None => (Fresh t, s)
  end.

(** The backend calls of the reduction helper, by mode. *)
Definition reduce_events (red : string) : list event :=
  if String.eqb red "sum" then [EvSum]
  else if String.eqb red "mean" then [EvMean]
  else [].

(** The backend calls of the weighted case, in program order. *)
Definition weighted_events : list event :=
  [EvSigmoid; EvClip; EvLog; EvNeg; EvMul; EvMul; EvSub; EvSub; EvLog;
   EvNeg; EvMul; EvAdd; EvNeg].

(** [run] computes the tensor [loss], whatever the mode and the buffer,
    and hands it to the reduction helper. *)
Definition reduces_to (run : string -> option loc -> M array) (loss : tensor) : Prop :=
  forall red out s, red ∈ reductions ->
    exists es, run red out s = _reduce_loss red loss None out (logged s es).

(** [run] raises on its operands, whatever the mode and the buffer. *)
Definition fails_shape (run : string -> option loc -> M array) : Prop :=
  forall red out s, red ∈ reductions ->
    exists es, run red out s = (Raise ShapeError, logged s es).

(** [lifts sh t l]: the well-formed tensor [t] broadcasts to the shape
    [sh], where its entries are [l]. *)
Definition lifts (sh : list nat) (t : tensor) (l : list scalar) : Prop :=
  wf t
  /\ (length (shape t) <= length sh)%nat
  /\ compat (pad_shape (length sh) (shape t)) sh
  /\ broadcast_to sh t = l.

(** The one case that leaves the computation to the primitive. *)
Definition is_delegated (f : loss_fn) : bool :=
  match f with
  | BCE _ None => true
  | _ => false
  end.

(** Small inputs for the examples. *)
Definition s_init : state := mkState ∅ [].
Definition vec (l : list R) : tensor := mkTensor [length l] (map Fin l).
Definition empty_vec : tensor := mkTensor [0%nat] [].

(** The inputs of the worked example of the documentation. *)
Definition true_ex : tensor := vec [1; 2; 3; 4].
Definition pred_ex : tensor := vec [0.9; 2.1; 2.8; 4.2].

(** * Properties *)

(** ** The model at work *)

Example broadcast_row_over_matrix :
  map2 sub (mkTensor [2; 2]%nat [Fin 1; Fin 2; Fin 3; Fin 4])
           (mkTensor [2]%nat [Fin 10; Fin 20])
  = Some (mkTensor [2; 2]%nat
            [Fin (1 - 10); Fin (2 - 20); Fin (3 - 10); Fin (4 - 20)]).
Proof. reflexivity. Qed.

Example broadcast_column_against_row :
  map2 sub (mkTensor [2; 1]%nat [Fin 1; Fin 2]) (mkTensor [2]%nat [Fin 10; Fin 20])
  = Some (mkTensor [2; 2]%nat
            [Fin (1 - 10); Fin (1 - 20); Fin (2 - 10); Fin (2 - 20)]).
Proof. reflexivity. Qed.

Example broadcast_mismatch :
  map2 sub (mkTensor [3]%nat [Fin 1; Fin 2; Fin 3]) (mkTensor [2]%nat [Fin 10; Fin 20])
  = None.
Proof. reflexivity. Qed.

Example mean_keepdims_of_matrix :
  shape (mean_keepdims (mkTensor [2; 2]%nat [Fin 1; Fin 2; Fin 3; Fin 4])) = [1; 1]%nat
  /\ length (data (mean_keepdims (mkTensor [2; 2]%nat [Fin 1; Fin 2; Fin 3; Fin 4]))) = 1%nat.
Proof. split; reflexivity. Qed.

Example mean_of_nothing : average (mkTensor [0]%nat []) = NaN.
Proof. reflexivity. Qed.

Example infinities_cancel_to_nothing :
  sub (Inf true) (Inf true) = NaN /\ add (Inf true) (Inf false) = NaN
  /\ sub (Inf true) (Inf false) = Inf true /\ square (Inf false) = Inf true.
Proof. repeat split. Qed.

Example probabilities_of_infinite_logits :
  sigmoid (Inf true) = Fin 1 /\ sigmoid (Inf false) = Fin 0
  /\ clip 0.25 0.75 (Inf true) = Fin 0.75.
Proof. repeat split. Qed.

Example mismatch_raises_after_validation :
  mse_loss (mkTensor [3]%nat [Fin 1; Fin 2; Fin 3]) (mkTensor [2]%nat [Fin 10; Fin 20])
    "mean" None (mkState ∅ [])
  = (Raise ShapeError, mkState ∅ [EvSub]).
Proof. reflexivity. Qed.

(** ** Lists and broadcasting *)

Section ListFacts.
Context {A : Type}.

Lemma chunks_concat (n k : nat) (l : list A) :
  length l = (k * n)%nat -> concat (chunks n k l) = l.
Proof.
  revert l; induction k as [|k IH]; intros l Hl; simpl in *.
  - now destruct l.
  - rewrite IH; [apply firstn_skipn|].
    rewrite length_skipn. lia.
Qed.

Lemma chunks_length (n k : nat) (l c : list A) :
  length l = (k * n)%nat -> In c (chunks n k l) -> length c = n.
Proof.
  revert l; induction k as [|k IH]; intros l Hl Hc; simpl in *; [easy|].
  destruct Hc as [<-|Hc].
  - rewrite length_firstn. lia.
  - apply (IH (skipn n l)); [rewrite length_skipn; lia|assumption].
Qed.

Lemma expand_same (s : list nat) (l : list A) :
  length l = prod_shape s -> expand s s l = l.
Proof.
  revert l; induction s as [|a s IH]; intros l Hl; simpl in *; [reflexivity|].
  rewrite Nat.eqb_refl.
  rewrite <- (chunks_concat (prod_shape s) a l) at 2 by exact Hl.
  f_equal. rewrite <- (map_id (chunks _ _ _)) at 2.
  apply map_ext_in. intros c Hc. apply IH.
  eapply chunks_length; eauto.
Qed.

Lemma in_concat_repeat (x : A) (l : list A) (n : nat) :
  In x (concat (repeat l n)) -> In x l.
Proof.
  induction n as [|n IH]; simpl; [easy|].
  rewrite in_app_iff. tauto.
Qed.

Lemma in_firstn_skipn (n : nat) (l : list A) (x : A) :
  In x (firstn n l) \/ In x (skipn n l) -> In x l.
Proof.
  rewrite <- (firstn_skipn n l) at 3. rewrite in_app_iff. tauto.
Qed.

Lemma in_chunks (n k : nat) (l c : list A) (x : A) :
  In c (chunks n k l) -> In x c -> In x l.
Proof.
  revert l; induction k as [|k IH]; intros l Hc Hx; simpl in *; [easy|].
  destruct Hc as [<-|Hc].
  - apply (in_firstn_skipn n); auto.
  - apply (in_firstn_skipn n); right. eapply IH; eauto.
Qed.

Lemma in_expand (src tgt : list nat) (l : list A) (x : A) :
  In x (expand src tgt l) -> In x l.
Proof.
  revert tgt l; induction src as [|a src IH]; intros tgt l Hx; simpl in *; [assumption|].
  destruct tgt as [|b tgt]; [assumption|].
  destruct (Nat.eqb a b).
  - apply in_concat in Hx as (c & Hc & Hx).
    apply in_map_iff in Hc as (c0 & <- & Hc0).
    eapply in_chunks; eauto.
  - apply in_concat_repeat in Hx. eauto.
Qed.

End ListFacts.

Section ShapeFacts.

Lemma pad_shape_same (s : list nat) : pad_shape (length s) s = s.
Proof. unfold pad_shape. now rewrite Nat.sub_diag. Qed.

Lemma broadcast_dim_same (a : nat) : broadcast_dim a a = Some a.
Proof. unfold broadcast_dim. now rewrite Nat.eqb_refl. Qed.

Lemma broadcast_dim_one (b : nat) : broadcast_dim 1 b = Some b.
Proof.
  unfold broadcast_dim. destruct (Nat.eqb_spec 1 b) as [<-|]; reflexivity.
Qed.

Lemma broadcast_aligned_same (s : list nat) : broadcast_aligned s s = Some s.
Proof.
  induction s as [|a s IH]; simpl; [reflexivity|].
  now rewrite broadcast_dim_same, IH.
Qed.

Lemma broadcast_aligned_ones (s : list nat) :
  broadcast_aligned (repeat 1%nat (length s)) s = Some s.
Proof.
  induction s as [|a s IH]; simpl; [reflexivity|].
  now rewrite broadcast_dim_one, IH.
Qed.

Lemma broadcast_shapes_same (s : list nat) : broadcast_shapes s s = Some s.
Proof.
  unfold broadcast_shapes. rewrite Nat.max_id, pad_shape_same.
  apply broadcast_aligned_same.
Qed.

Lemma broadcast_shapes_scalar (s : list nat) : broadcast_shapes [] s = Some s.
Proof.
  unfold broadcast_shapes. simpl length. rewrite Nat.max_0_l, pad_shape_same.
  unfold pad_shape. simpl length. rewrite Nat.sub_0_r, app_nil_r.
  apply broadcast_aligned_ones.
Qed.

Lemma prod_shape_ones (n : nat) : prod_shape (repeat 1%nat n) = 1%nat.
Proof. induction n as [|n IH]; simpl; [reflexivity|]. rewrite IH. lia. Qed.

Lemma prod_shape_map_one (s : list nat) : prod_shape (map (fun _ => 1%nat) s) = 1%nat.
Proof. induction s as [|a s IH]; simpl; [reflexivity|]. rewrite IH. lia. Qed.

Lemma concat_repeat_repeat {A} (x : A) (m n : nat) :
  concat (repeat (repeat x m) n) = repeat x (n * m).
Proof.
  induction n as [|n IH]; simpl; [reflexivity|].
  now rewrite IH, repeat_app.
Qed.

Lemma expand_ones {A} (s : list nat) (x : A) :
  expand (repeat 1%nat (length s)) s [x] = repeat x (prod_shape s).
Proof.
  induction s as [|b s IH]; [reflexivity|].
  cbn [length repeat expand prod_shape fold_right].
  fold (prod_shape s). fold (prod_shape (repeat 1%nat (length s))).
  destruct (Nat.eqb_spec 1 b) as [<-|Hb].
  - rewrite prod_shape_ones. cbn [chunks map concat firstn].
    rewrite IH, app_nil_r. f_equal. lia.
  - rewrite IH. apply concat_repeat_repeat.
Qed.

Lemma zip_with_repeat_l {A B C} (f : A -> B -> C) (x : A) (l : list B) :
  zip_with f (repeat x (length l)) l = map (f x) l.
Proof. induction l as [|y l IH]; simpl; [reflexivity|]. now rewrite IH. Qed.

End ShapeFacts.

Section TensorFacts.

Lemma broadcast_to_same (t : tensor) : wf t -> broadcast_to (shape t) t = data t.
Proof.
  intros Hwf. unfold broadcast_to. rewrite pad_shape_same.
  now apply expand_same.
Qed.

Lemma broadcast_to_scalar (s : list nat) (x : scalar) :
  broadcast_to s (of_scalar x) = repeat x (prod_shape s).
Proof.
  unfold broadcast_to, of_scalar, pad_shape. cbn [shape data length].
  rewrite Nat.sub_0_r, app_nil_r. apply expand_ones.
Qed.

(** Operands of one shape: the operation is applied entry by entry. *)
Lemma map2_same_shape (f : scalar -> scalar -> scalar) (t1 t2 : tensor) :
  shape t1 = shape t2 -> wf t1 -> wf t2 ->
  map2 f t1 t2 = Some (mkTensor (shape t1) (zip_with f (data t1) (data t2))).
Proof.
  intros Hs H1 H2. unfold map2. rewrite <- Hs, broadcast_shapes_same.
  rewrite broadcast_to_same by assumption.
  rewrite Hs, broadcast_to_same by assumption. reflexivity.
Qed.

(** A Python number on the left: it meets every entry. *)
Lemma map2_scalar_l (f : scalar -> scalar -> scalar) (x : scalar) (t : tensor) :
  wf t ->
  map2 f (of_scalar x) t = Some (mkTensor (shape t) (map (f x) (data t))).
Proof.
  intros Hwf. unfold map2. cbn [shape of_scalar].
  rewrite broadcast_shapes_scalar, broadcast_to_scalar.
  rewrite broadcast_to_same by assumption.
  unfold wf, numel in Hwf. rewrite <- Hwf, zip_with_repeat_l. reflexivity.
Qed.

Lemma map2_scalar_l_defined (f : scalar -> scalar -> scalar) (x : scalar) (t : tensor) :
  exists r, map2 f (of_scalar x) t = Some r
            /\ Forall (fun y => exists z, In z (data t) /\ y = f x z) (data r).
Proof.
  unfold map2. cbn [shape of_scalar].
  rewrite broadcast_shapes_scalar. eexists; split; [reflexivity|].
  cbn [data]. rewrite broadcast_to_scalar.
  generalize (prod_shape (shape t)) as n.
  assert (Hin : forall z, In z (broadcast_to (shape t) t) -> In z (data t))
    by (intros z; apply in_expand).
  revert Hin. generalize (broadcast_to (shape t) t) as l.
  induction l as [|z l IH]; intros Hin n.
  - destruct n; constructor.
  - destruct n as [|n]; [constructor|]. cbn [repeat zip_with].
    constructor.
    + exists z. split; [apply Hin; now left | reflexivity].
    + apply IH. intros z' Hz'. apply Hin. now right.
Qed.

Lemma wf_map1 (f : scalar -> scalar) (t : tensor) : wf t -> wf (map1 f t).
Proof. unfold wf, numel, map1. cbn. now rewrite length_map. Qed.

Lemma numel_mean_keepdims (t : tensor) : numel (mean_keepdims t) = 1%nat.
Proof. unfold numel, mean_keepdims. cbn. apply prod_shape_map_one. Qed.

End TensorFacts.

(** ** Broadcasting, algebraically *)

Section ExpandFacts.
Context {A : Type}.

Lemma chunks_count (n k : nat) (l : list A) : length (chunks n k l) = k.
Proof. revert l; induction k as [|k IH]; intros l; simpl; [reflexivity|]. now rewrite IH. Qed.

Lemma chunks_all_length (n k : nat) (l : list A) :
  length l = (k * n)%nat -> Forall (fun c => length c = n) (chunks n k l).
Proof.
  intros H. apply List.Forall_forall. intros c Hc. eapply chunks_length; eauto.
Qed.

Lemma chunks_of_concat (n : nat) (L : list (list A)) :
  Forall (fun c => length c = n) L -> chunks n (length L) (concat L) = L.
Proof.
  induction 1 as [|c L Hc _ IH]; [reflexivity|].
  cbn [length concat chunks].
  replace (firstn n (c ++ concat L)) with c
    by (rewrite <- Hc; symmetry; apply take_app_length).
  replace (skipn n (c ++ concat L)) with (concat L)
    by (rewrite <- Hc; symmetry; apply drop_app_length).
  now rewrite IH.
Qed.

Lemma chunks_blocks (n k : nat) (L : list (list A)) :
  length L = k -> Forall (fun c => length c = n) L -> chunks n k (concat L) = L.
Proof. intros <-. apply chunks_of_concat. Qed.

Lemma length_concat_const (m : nat) (L : list (list A)) :
  Forall (fun c => length c = m) L -> length (concat L) = (length L * m)%nat.
Proof.
  induction 1 as [|c L Hc _ IH]; [reflexivity|].
  cbn [concat length]. rewrite length_app, IH, Hc. lia.
Qed.

Lemma chunks_one (n : nat) (l : list A) :
  length l = n -> chunks n 1 l = [l].
Proof. intros <-. cbn [chunks]. now rewrite firstn_all. Qed.

Lemma length_expand (src tgt : list nat) (l : list A) :
  compat src tgt -> length l = prod_shape src ->
  length (expand src tgt l) = prod_shape tgt.
Proof.
  intros H; revert l; induction H as [|a b src tgt Hab _ IH]; intros l Hl; [exact Hl|].
  cbn [expand prod_shape fold_right] in *.
  fold (prod_shape src) in *. fold (prod_shape tgt).
  destruct (Nat.eqb_spec a b) as [<-|Hne].
  - rewrite (length_concat_const (prod_shape tgt)).
    + now rewrite length_map, chunks_count.
    + rewrite Forall_map. eapply List.Forall_impl; [|apply chunks_all_length; exact Hl].
      intros c Hc. cbn. now apply IH.
  - destruct Hab as [Hab| ->]; [contradiction|].
    rewrite (length_concat_const (prod_shape tgt)).
    + now rewrite repeat_length.
    + apply List.Forall_forall. intros c Hc. apply repeat_spec in Hc as ->.
      apply IH. lia.
Qed.

End ExpandFacts.

Section ExpandAlgebra.

Lemma chunks_map {A B} (g : A -> B) (n k : nat) (l : list A) :
  chunks n k (map g l) = map (map g) (chunks n k l).
Proof.
  revert l; induction k as [|k IH]; intros l; [reflexivity|].
  cbn [chunks map]. now rewrite firstn_map, skipn_map, IH.
Qed.

Lemma concat_repeat_map {A B} (g : A -> B) (l : list A) (n : nat) :
  concat (repeat (map g l) n) = map g (concat (repeat l n)).
Proof.
  induction n as [|n IH]; [reflexivity|].
  cbn [repeat concat]. now rewrite map_app, IH.
Qed.

Lemma expand_map {A B} (g : A -> B) (src tgt : list nat) (l : list A) :
  expand src tgt (map g l) = map g (expand src tgt l).
Proof.
  revert tgt l; induction src as [|a src IH]; intros tgt l; [reflexivity|].
  destruct tgt as [|b tgt]; [reflexivity|]. cbn [expand].
  destruct (Nat.eqb a b).
  - rewrite chunks_map, map_map, concat_map, map_map.
    f_equal. apply map_ext. intros c. apply IH.
  - rewrite IH. apply concat_repeat_map.
Qed.

Lemma firstn_zip_with {A B C} (f : A -> B -> C) (n : nat) (l1 : list A) (l2 : list B) :
  firstn n (zip_with f l1 l2) = zip_with f (firstn n l1) (firstn n l2).
Proof.
  revert l1 l2; induction n as [|n IH]; intros l1 l2; [reflexivity|].
  destruct l1 as [|x l1]; [reflexivity|]. destruct l2 as [|y l2]; [reflexivity|].
  cbn [zip_with firstn]. now rewrite IH.
Qed.

Lemma skipn_zip_with {A B C} (f : A -> B -> C) (n : nat) (l1 : list A) (l2 : list B) :
  skipn n (zip_with f l1 l2) = zip_with f (skipn n l1) (skipn n l2).
Proof.
  revert l1 l2; induction n as [|n IH]; intros l1 l2; [reflexivity|].
  destruct l1 as [|x l1]; [reflexivity|].
  destruct l2 as [|y l2]; [cbn [zip_with skipn]; now destruct (skipn n l1)|].
  cbn [zip_with skipn]. apply IH.
Qed.

Lemma zip_with_app_same {A B C} (f : A -> B -> C) (a1 a2 : list A) (b1 b2 : list B) :
  length a1 = length b1 ->
  zip_with f (a1 ++ a2) (b1 ++ b2) = zip_with f a1 b1 ++ zip_with f a2 b2.
Proof.
  revert b1; induction a1 as [|x a1 IH]; intros [|y b1] H; try discriminate H; [reflexivity|].
  cbn [app zip_with]. rewrite IH; [reflexivity|]. now injection H.
Qed.

Lemma concat_repeat_zip_with {A B C} (f : A -> B -> C) (l1 : list A) (l2 : list B) (n : nat) :
  length l1 = length l2 ->
  concat (repeat (zip_with f l1 l2) n)
  = zip_with f (concat (repeat l1 n)) (concat (repeat l2 n)).
Proof.
  intros H. induction n as [|n IH]; [reflexivity|].
  cbn [repeat concat]. now rewrite zip_with_app_same, IH.
Qed.

(** Blockwise: a function that commutes with [zip_with] on blocks
    commutes with it on the concatenation of the blocks. *)
Lemma blocks_zip_with {A B C} (f : A -> B -> C)
    (eA : list A -> list A) (eB : list B -> list B) (eC : list C -> list C)
    (n m k : nat) (l1 : list A) (l2 : list B) :
  (forall c1 c2, length c1 = n -> length c2 = n ->
     eC (zip_with f c1 c2) = zip_with f (eA c1) (eB c2)) ->
  (forall c, length c = n -> length (eA c) = m) ->
  (forall c, length c = n -> length (eB c) = m) ->
  length l1 = (k * n)%nat -> length l2 = (k * n)%nat ->
  concat (map eC (chunks n k (zip_with f l1 l2)))
  = zip_with f (concat (map eA (chunks n k l1))) (concat (map eB (chunks n k l2))).
Proof.
  intros He HA HB. revert l1 l2; induction k as [|k IH]; intros l1 l2 H1 H2; [reflexivity|].
  cbn [chunks map concat].
  rewrite firstn_zip_with, skipn_zip_with.
  assert (F1 : length (firstn n l1) = n) by (rewrite length_firstn; lia).
  assert (F2 : length (firstn n l2) = n) by (rewrite length_firstn; lia).
  rewrite He by assumption.
  rewrite IH by (rewrite length_skipn; lia).
  symmetry. apply zip_with_app_same. now rewrite HA, HB.
Qed.

Lemma expand_zip_with {A B C} (f : A -> B -> C) (src tgt : list nat)
    (l1 : list A) (l2 : list B) :
  compat src tgt -> length l1 = prod_shape src -> length l2 = prod_shape src ->
  expand src tgt (zip_with f l1 l2)
  = zip_with f (expand src tgt l1) (expand src tgt l2).
Proof.
  intros H; revert l1 l2; induction H as [|a b src tgt Hab Hc IH]; intros l1 l2 H1 H2;
    [reflexivity|].
  cbn [expand prod_shape fold_right] in *. fold (prod_shape src) in *.
  destruct (Nat.eqb_spec a b) as [<-|Hne].
  - apply (blocks_zip_with f _ _ _ (prod_shape src) (prod_shape tgt));
      try assumption; intros c L; now apply length_expand.
  - destruct Hab as [Hab| ->]; [contradiction|].
    rewrite IH by lia. apply concat_repeat_zip_with.
    rewrite !(length_expand src tgt) by (assumption || lia). reflexivity.
Qed.

Lemma expand_expand {A} (s1 s2 s3 : list nat) (l : list A) :
  compat s1 s2 -> compat s2 s3 -> length l = prod_shape s1 ->
  expand s2 s3 (expand s1 s2 l) = expand s1 s3 l.
Proof.
  intros H12; revert s3 l; induction H12 as [|a b s1 s2 Hab H12 IH]; intros s3 l H23 Hl.
  - inversion H23; subst. reflexivity.
  - inversion H23 as [|b' c s2' s3' Hbc H23']; subst.
    cbn [expand prod_shape fold_right] in *.
    fold (prod_shape s1) in *. fold (prod_shape s2).
    destruct (Nat.eqb_spec a b) as [<-|Hne1].
    + destruct (Nat.eqb_spec a c) as [<-|Hne2].
      * rewrite chunks_blocks.
        -- rewrite map_map. f_equal. apply map_ext_in. intros x Hx.
           apply IH; [assumption|]. eapply chunks_length; eauto.
        -- now rewrite length_map, chunks_count.
        -- rewrite Forall_map. eapply List.Forall_impl; [|apply chunks_all_length; exact Hl].
           intros x Hx. cbn. now apply length_expand.
      * destruct Hbc as [Hbc| ->]; [contradiction|].
        rewrite chunks_one by lia. cbn [map concat]. rewrite app_nil_r.
        rewrite IH by (assumption || lia). reflexivity.
    + destruct Hab as [Hab| ->]; [contradiction|].
      destruct (Nat.eqb_spec b c) as [<-|Hne2].
      * destruct (Nat.eqb_spec 1 b) as [E|_]; [contradiction|].
        rewrite chunks_blocks.
        -- rewrite <- (IH s3' l) by (assumption || lia).
           clear. induction b as [|b IHb]; [reflexivity|].
           cbn [repeat map concat]. now rewrite IHb.
        -- apply repeat_length.
        -- apply List.Forall_forall. intros x Hx. apply repeat_spec in Hx as ->.
           apply length_expand; [assumption | lia].
      * destruct Hbc as [Hbc| ->]; [contradiction|]. contradiction.
Qed.

End ExpandAlgebra.


Section CompatFacts.

Lemma prod_shape_app (s1 s2 : list nat) :
  prod_shape (s1 ++ s2) = (prod_shape s1 * prod_shape s2)%nat.
Proof.
  unfold prod_shape. induction s1 as [|a s1 IH]; cbn [app fold_right]; [lia|].
  rewrite IH. lia.
Qed.

Lemma prod_pad_shape (n : nat) (s : list nat) : prod_shape (pad_shape n s) = prod_shape s.
Proof. unfold pad_shape. rewrite prod_shape_app, prod_shape_ones. lia. Qed.

Lemma length_pad_shape (n : nat) (s : list nat) :
  (length s <= n)%nat -> length (pad_shape n s) = n.
Proof. intros H. unfold pad_shape. rewrite length_app, repeat_length. lia. Qed.

Lemma pad_shape_split (m n : nat) (s : list nat) :
  (length s <= m)%nat -> (m <= n)%nat ->
  pad_shape n s = repeat 1%nat (n - m) ++ pad_shape m s.
Proof.
  intros H1 H2. unfold pad_shape. rewrite app_assoc, <- repeat_app.
  do 2 f_equal. lia.
Qed.

Lemma compat_length (a b : list nat) : compat a b -> length a = length b.
Proof. apply Forall2_length. Qed.

Lemma compat_refl (a : list nat) : compat a a.
Proof. induction a; constructor; auto. Qed.

Lemma compat_trans (a b c : list nat) : compat a b -> compat b c -> compat a c.
Proof.
  intros H; revert c; induction H as [|x y a b Hxy _ IH]; intros c Hbc;
    inversion Hbc as [|y' z b' c' Hyz Hbc']; subst; constructor;
    [|now apply IH].
  destruct Hxy as [-> | ->]; [exact Hyz | now right].
Qed.

Lemma compat_ones (s : list nat) : compat (repeat 1%nat (length s)) s.
Proof. induction s; cbn; constructor; auto. Qed.

Lemma compat_prefix (k : nat) (a b : list nat) :
  compat a b -> compat (repeat 1%nat k ++ a) (repeat 1%nat k ++ b).
Proof. intros H. induction k; cbn; [exact H|]. constructor; auto. Qed.

Lemma broadcast_dim_spec (x y d : nat) :
  broadcast_dim x y = Some d -> (x = d \/ x = 1%nat) /\ (y = d \/ y = 1%nat).
Proof.
  unfold broadcast_dim.
  destruct (Nat.eqb_spec x y) as [-> | _]; [intros [= ->]; auto|].
  destruct (Nat.eqb_spec x 1) as [-> | _]; [intros [= ->]; auto|].
  destruct (Nat.eqb_spec y 1) as [-> | _]; [intros [= ->]; auto|discriminate].
Qed.

Lemma broadcast_aligned_compat (a b d : list nat) :
  broadcast_aligned a b = Some d -> compat a d /\ compat b d.
Proof.
  revert b d; induction a as [|x a IH]; intros [|y b] d H; cbn in H; try discriminate H.
  - injection H as <-. split; constructor.
  - destruct (broadcast_dim x y) as [w|] eqn:Ew; [|discriminate H].
    destruct (broadcast_aligned a b) as [d'|] eqn:Ed; [|discriminate H].
    injection H as <-. apply broadcast_dim_spec in Ew as [? ?].
    destruct (IH _ _ Ed). split; constructor; assumption.
Qed.

Lemma broadcast_dim_join (x y z : nat) :
  (x = z \/ x = 1%nat) -> (y = z \/ y = 1%nat) ->
  exists w, broadcast_dim x y = Some w /\ (w = z \/ w = 1%nat) /\ (x = z -> w = z).
Proof.
  intros Hx Hy. unfold broadcast_dim.
  destruct (Nat.eqb_spec x y) as [->|Hxy]; [eauto|].
  destruct (Nat.eqb_spec x 1) as [->|Hx1].
  - exists y. repeat split; auto. intros <-. destruct Hy; congruence.
  - destruct Hx as [-> |]; [|contradiction].
    destruct Hy as [-> | ->]; [contradiction|].
    cbn. eauto.
Qed.

Lemma broadcast_aligned_join (a b c : list nat) :
  compat a c -> compat b c ->
  exists d, broadcast_aligned a b = Some d /\ compat d c /\ (a = c -> d = c).
Proof.
  intros Ha; revert b; induction Ha as [|x z a c Hxz _ IH]; intros b Hb;
    inversion Hb as [|y z' b' c' Hyz Hb']; subst.
  - exists []. repeat split; constructor.
  - destruct (broadcast_dim_join x y z Hxz Hyz) as (w & Ew & Hwz & Hw).
    destruct (IH _ Hb') as (d & Ed & Hd & Hdc).
    exists (w :: d). cbn. rewrite Ew, Ed. repeat split.
    + constructor; assumption.
    + intros [= -> ->]. now rewrite Hw, Hdc.
Qed.

Lemma broadcast_aligned_prefix (k : nat) (a b : list nat) :
  broadcast_aligned (repeat 1%nat k ++ a) (repeat 1%nat k ++ b)
  = (fun d => repeat 1%nat k ++ d) <$> broadcast_aligned a b.
Proof.
  induction k as [|k IH]; cbn [repeat app broadcast_aligned].
  - now destruct (broadcast_aligned a b).
  - rewrite IH, broadcast_dim_same. now destruct (broadcast_aligned a b).
Qed.

Lemma broadcast_shapes_spec (a b c : list nat) :
  broadcast_shapes a b = Some c ->
  length c = Nat.max (length a) (length b)
  /\ compat (pad_shape (length c) a) c
  /\ compat (pad_shape (length c) b) c.
Proof.
  unfold broadcast_shapes. intros H.
  destruct (broadcast_aligned_compat _ _ _ H) as [Ha Hb].
  assert (Hl : length c = Nat.max (length a) (length b)).
  { rewrite <- (compat_length _ _ Ha), length_pad_shape; lia. }
  rewrite Hl. auto.
Qed.

End CompatFacts.

Section LiftFacts.

Lemma expand_prefix_ones {A} (k : nat) (src tgt : list nat) (l : list A) :
  length l = prod_shape src ->
  expand (repeat 1%nat k ++ src) (repeat 1%nat k ++ tgt) l = expand src tgt l.
Proof.
  intros Hl. induction k as [|k IH]; [reflexivity|].
  cbn [repeat app expand Nat.eqb].
  rewrite chunks_one by (rewrite prod_shape_app, prod_shape_ones; lia).
  cbn [map concat]. now rewrite app_nil_r.
Qed.

Lemma lift_through {A} (sh s12 s : list nat) (d : list A) :
  (length s <= length s12)%nat -> (length s12 <= length sh)%nat ->
  compat (pad_shape (length s12) s) s12 ->
  compat (pad_shape (length sh) s12) sh ->
  length d = prod_shape s ->
  expand (pad_shape (length sh) s12) sh (expand (pad_shape (length s12) s) s12 d)
  = expand (pad_shape (length sh) s) sh d.
Proof.
  intros H1 H2 C1 C2 Hd.
  rewrite <- (expand_prefix_ones (length sh - length s12) (pad_shape (length s12) s) s12 d)
    by now rewrite prod_pad_shape.
  rewrite <- (pad_shape_split (length s12) (length sh) s) by assumption.
  replace (repeat 1%nat (length sh - length s12) ++ s12) with (pad_shape (length sh) s12)
    by (rewrite (pad_shape_split (length s12) (length sh) s12), pad_shape_same; auto).
  apply expand_expand.
  - rewrite (pad_shape_split (length s12) (length sh) s) by assumption.
    rewrite (pad_shape_split (length s12) (length sh) s12), pad_shape_same by auto.
    now apply compat_prefix.
  - exact C2.
  - now rewrite prod_pad_shape.
Qed.

Lemma lifts_length (sh : list nat) (t : tensor) (l : list scalar) :
  lifts sh t l -> length l = prod_shape sh.
Proof.
  intros (W & L & C & <-). unfold broadcast_to.
  apply length_expand; [exact C|]. now rewrite prod_pad_shape.
Qed.

Lemma lifts_map1 (g : scalar -> scalar) (sh : list nat) (t : tensor) (l : list scalar) :
  lifts sh t l -> lifts sh (map1 g t) (map g l).
Proof.
  intros (W & L & C & <-). repeat split; try assumption.
  - now apply wf_map1.
  - unfold broadcast_to, map1. cbn [shape data]. apply expand_map.
Qed.

Lemma lifts_one (sh : list nat) : lifts sh one (repeat (Fin 1) (prod_shape sh)).
Proof.
  repeat split.
  - cbn. lia.
  - unfold pad_shape. cbn [one of_scalar shape length].
    rewrite Nat.sub_0_r, app_nil_r. apply compat_ones.
  - apply broadcast_to_scalar.
Qed.

Lemma map2_shape (f : scalar -> scalar -> scalar) (t1 t2 t : tensor) :
  map2 f t1 t2 = Some t -> broadcast_shapes (shape t1) (shape t2) = Some (shape t).
Proof.
  unfold map2. destruct (broadcast_shapes (shape t1) (shape t2)); [|discriminate].
  now intros [= <-].
Qed.

(** Operands that both broadcast to [sh]: the operation is defined, and
    seen in shape [sh] it is the operation entry by entry. *)
Lemma map2_lifts (f : scalar -> scalar -> scalar) (sh : list nat)
    (t1 t2 : tensor) (l1 l2 : list scalar) :
  lifts sh t1 l1 -> lifts sh t2 l2 ->
  exists t, map2 f t1 t2 = Some t
            /\ lifts sh t (zip_with f l1 l2)
            /\ (shape t1 = sh -> shape t = sh).
Proof.
  intros (W1 & L1 & C1 & B1) (W2 & L2 & C2 & B2).
  set (n := length sh) in *.
  set (m := Nat.max (length (shape t1)) (length (shape t2))).
  assert (Hm : (m <= n)%nat) by lia.
  destruct (broadcast_aligned_join _ _ _ C1 C2) as (D & ED & HD & HDS).
  rewrite (pad_shape_split m n (shape t1)), (pad_shape_split m n (shape t2)) in ED by lia.
  rewrite broadcast_aligned_prefix in ED.
  destruct (broadcast_aligned (pad_shape m (shape t1)) (pad_shape m (shape t2)))
    as [s12|] eqn:E12; [|discriminate ED].
  cbn in ED. injection ED as <-.
  destruct (broadcast_aligned_compat _ _ _ E12) as [K1 K2].
  assert (Hlen : length s12 = m)
    by (rewrite <- (compat_length _ _ K1); apply length_pad_shape; lia).
  assert (Hpad : pad_shape n s12 = repeat 1%nat (n - m) ++ s12)
    by (rewrite (pad_shape_split m n s12) by lia; now rewrite <- Hlen, pad_shape_same).
  exists (mkTensor s12 (zip_with f (broadcast_to s12 t1) (broadcast_to s12 t2))).
  split; [|split].
  - unfold map2, broadcast_shapes. fold m. now rewrite E12.
  - unfold broadcast_to. rewrite Hlen.
    assert (X1 : length (expand (pad_shape m (shape t1)) s12 (data t1)) = prod_shape s12)
      by (apply length_expand; [exact K1 | now rewrite prod_pad_shape]).
    assert (X2 : length (expand (pad_shape m (shape t2)) s12 (data t2)) = prod_shape s12)
      by (apply length_expand; [exact K2 | now rewrite prod_pad_shape]).
    repeat split; cbn [shape data].
    + unfold wf, numel. cbn [shape data]. rewrite length_zip_with. lia.
    + fold n. lia.
    + fold n. now rewrite Hpad.
    + unfold broadcast_to. cbn [shape data]. fold n. rewrite expand_zip_with
        by (rewrite ?prod_pad_shape; first [now rewrite Hpad | assumption]).
      rewrite <- Hlen. unfold n.
      rewrite !lift_through
        by (fold n; rewrite ?Hlen; first [lia | assumption | now rewrite Hpad]).
      unfold broadcast_to in B1, B2. now rewrite B1, B2.
  - cbn [shape]. intros E.
    assert (Hn : length (shape t1) = n) by (unfold n; now rewrite E).
    assert (HS : pad_shape n (shape t1) = sh)
      by (rewrite <- Hn, pad_shape_same; exact E).
    specialize (HDS HS).
    replace (n - m)%nat with 0%nat in HDS by lia. exact HDS.
Qed.

End LiftFacts.


Section ScalarFacts.

Lemma add_zero_l (a : scalar) : add (Fin 0) a = a.
Proof. destruct a as [|s|x]; cbn; try reflexivity. f_equal. lra. Qed.

Lemma sum_singleton (a : scalar) : Scalar.sum [a] = a.
Proof. unfold Scalar.sum. cbn [fold_left]. apply add_zero_l. Qed.

Lemma div_count_one (a : scalar) : div_count a 1 = a.
Proof. destruct a as [|s|x]; cbn; try reflexivity. f_equal. lra. Qed.

Lemma fold_add_zeros (l : list scalar) (a : R) :
  Forall (fun x => x = Fin 0) l -> fold_left add l (Fin a) = Fin a.
Proof.
  intros H; revert a; induction H as [|x l -> _ IH]; intros a; cbn; [reflexivity|].
  change (fold_left add l (Fin (a + 0)) = Fin a).
  rewrite IH. f_equal. lra.
Qed.

Lemma sum_zeros (l : list scalar) :
  Forall (fun x => x = Fin 0) l -> Scalar.sum l = Fin 0.
Proof. apply fold_add_zeros. Qed.

Lemma div_count_zero (n : nat) : n <> 0%nat -> div_count (Fin 0) n = Fin 0.
Proof.
  destruct n as [|n]; [easy|]. intros _. unfold div_count.
  f_equal. unfold Rdiv. apply Rmult_0_l.
Qed.

End ScalarFacts.

(** ** Running the computations *)

Section RunFacts.

Lemma logged_nil (s : state) : logged s [] = s.
Proof. destruct s; unfold logged; cbn. now rewrite app_nil_r. Qed.

Lemma logged_logged (s : state) (es es' : list event) :
  logged (logged s es) es' = logged s (es ++ es').
Proof. unfold logged; cbn. now rewrite app_assoc. Qed.

Lemma call_some (e : event) (t : tensor) (s : state) :
  call e (Some t) s = (Ok t, logged s [e]).
Proof. reflexivity. Qed.

Lemma call_none (e : event) (s : state) :
  call e None s = (Raise ShapeError, logged s [e]).
Proof. reflexivity. Qed.

Lemma bind_ok {A B} (m : M A) (k : A -> M B) (s s' : state) (a : A) :
  m s = (Ok a, s') -> bind m k s = k a s'.
Proof. intros H. unfold bind. now rewrite H. Qed.

Lemma bind_raise {A B} (m : M A) (k : A -> M B) (s s' : state) (e : exn) :
  m s = (Raise e, s') -> bind m k s = (Raise e, s').
Proof. intros H. unfold bind. now rewrite H. Qed.

Lemma check_ok (red : string) (s : state) :
  red ∈ reductions -> check_elem_in_list red reductions s = (Ok tt, s).
Proof.
  intros H. unfold check_elem_in_list. now rewrite bool_decide_eq_true_2.
Qed.

Lemma check_fail (red : string) (s : state) :
  red ∉ reductions -> check_elem_in_list red reductions s = (Raise ValueError, s).
Proof.
  intros H. unfold check_elem_in_list. now rewrite bool_decide_eq_false_2.
Qed.

Lemma none_valid : "none"%string ∈ reductions.
Proof. apply (bool_decide_unpack _); vm_compute; exact I. Qed.
Lemma sum_valid : "sum"%string ∈ reductions.
Proof. apply (bool_decide_unpack _); vm_compute; exact I. Qed.
Lemma mean_valid : "mean"%string ∈ reductions.
Proof. apply (bool_decide_unpack _); vm_compute; exact I. Qed.

Lemma reductions_cases (red : string) :
  red ∈ reductions -> red = "none"%string \/ red = "sum"%string \/ red = "mean"%string.
Proof.
  unfold reductions. rewrite !elem_of_cons, elem_of_nil. tauto.
Qed.

Lemma deliver_run (out : option loc) (t : tensor) (s : state) :
  deliver out t s = (Ok (delivered out t s).1, (delivered out t s).2).
Proof. destruct out; reflexivity. Qed.

Lemma delivered_contents (out : option loc) (t : tensor) (s : state) :
  contents (delivered out t s).2 (delivered out t s).1 = Some t.
Proof. destruct out; cbn; [apply lookup_insert_eq | reflexivity]. Qed.

Lemma delivered_buffer (l : loc) (t : tensor) (s : state) :
  (delivered (Some l) t s).1 = Buffer l
  /\ heap (delivered (Some l) t s).2 !! l = Some t.
Proof. cbn. split; [reflexivity | apply lookup_insert_eq]. Qed.

(** The reduction helper computes the reduction of the specification
    and delivers it. *)
Lemma reduce_loss_run (red : string) (t : tensor) (out : option loc) (s : state) :
  _reduce_loss red t None out s
  = deliver out (Spec.reduce red t) (logged s (reduce_events red)).
Proof.
  unfold _reduce_loss, Spec.reduce, reduce_events.
  destruct (String.eqb red "sum"); [reflexivity|].
  destruct (String.eqb red "mean"); [reflexivity|].
  now rewrite logged_nil.
Qed.

Lemma mse_loss_run (true_ pred : tensor) (red : string) (out : option loc) (s : state) :
  red ∈ reductions ->
  mse_loss true_ pred red out s
  = match map2 sub true_ pred with
    | Some d =>
        _reduce_loss red (mean_keepdims (map1 square d)) None out
          (logged s [EvSub; EvSquare; EvMean])
    | None => (Raise ShapeError, logged s [EvSub])
    end.
Proof.
  intros H. unfold mse_loss.
  rewrite (bind_ok _ _ _ _ _ (check_ok red s H)).
  unfold t_sub. destruct (map2 sub true_ pred) as [d|]; [|reflexivity].
  rewrite (bind_ok _ _ _ _ _ (call_some _ _ _)).
  unfold ivy_square. rewrite (bind_ok _ _ _ _ _ (call_some _ _ _)).
  unfold ivy_mean_keepdims. rewrite (bind_ok _ _ _ _ _ (call_some _ _ _)).
  now rewrite !logged_logged.
Qed.

Lemma mae_loss_run (true_ pred : tensor) (red : string) (out : option loc) (s : state) :
  red ∈ reductions ->
  mae_loss true_ pred red out s
  = match map2 sub true_ pred with
    | Some d =>
        _reduce_loss red (mean_keepdims (map1 abs d)) None out
          (logged s [EvSub; EvAbs; EvMean])
    | None => (Raise ShapeError, logged s [EvSub])
    end.
Proof.
  intros H. unfold mae_loss.
  rewrite (bind_ok _ _ _ _ _ (check_ok red s H)).
  unfold t_sub. destruct (map2 sub true_ pred) as [d|]; [|reflexivity].
  rewrite (bind_ok _ _ _ _ _ (call_some _ _ _)).
  unfold ivy_abs. rewrite (bind_ok _ _ _ _ _ (call_some _ _ _)).
  unfold ivy_mean_keepdims. rewrite (bind_ok _ _ _ _ _ (call_some _ _ _)).
  now rewrite !logged_logged.
Qed.

End RunFacts.

(** One backend call that returns, and one that raises and ends the run. *)
Ltac call_ok := rewrite (bind_ok _ _ _ _ _ (call_some _ _ _)).
Ltac call_dead :=
  rewrite (bind_raise _ _ _ _ _ (call_none _ _)); rewrite ?logged_logged;
  eexists; reflexivity.

Section BceFacts.
Variable prim : prim_t.

Lemma bce_unweighted_run (true_ pred : tensor) (epsilon : R) (red : string)
    (out : option loc) (s : state) :
  red ∈ reductions ->
  binary_cross_entropy_with_logits prim true_ pred epsilon None red out s
  = prim true_ (map1 sigmoid pred) epsilon red out (logged s [EvSigmoid]).
Proof.
  intros H. unfold binary_cross_entropy_with_logits.
  rewrite (bind_ok _ _ _ _ _ (check_ok red s H)).
  unfold ivy_sigmoid. now rewrite (bind_ok _ _ _ _ _ (call_some _ _ _)).
Qed.

Lemma bce_weighted_run (true_ pred pos_weight : tensor) (epsilon : R)
    (red : string) (out : option loc) (s : state) :
  red ∈ reductions ->
  match Spec.weighted_loss true_ (Spec.clipped_sigmoid epsilon pred) pos_weight with
  | Some loss =>
      binary_cross_entropy_with_logits prim true_ pred epsilon (Some pos_weight) red out s
      = _reduce_loss red loss None out (logged s weighted_events)
  | None =>
      exists es,
        binary_cross_entropy_with_logits prim true_ pred epsilon (Some pos_weight) red out s
        = (Raise ShapeError, logged s es)
  end.
Proof.
  intros H. unfold binary_cross_entropy_with_logits.
  rewrite (bind_ok _ _ _ _ _ (check_ok red s H)).
  unfold ivy_sigmoid, ivy_clip, ivy_log, t_neg, t_mul, t_sub, t_add.
  do 4 call_ok.
  unfold Spec.weighted_loss, Spec.clipped_sigmoid.
  set (p := map1 (clip epsilon (1 - epsilon)) (map1 sigmoid pred)).
  destruct (map2 mul true_ (map1 neg (map1 log p))) as [m1|] eqn:E1; cbn [mbind option_bind];
    [call_ok | call_dead].
  destruct (map2 mul m1 pos_weight) as [m2|] eqn:E2; cbn [mbind option_bind];
    [call_ok | call_dead].
  destruct (map2 sub one true_) as [s1|] eqn:E3; cbn [mbind option_bind];
    [call_ok | call_dead].
  destruct (map2 sub one p) as [s2|] eqn:E4; cbn [mbind option_bind];
    [call_ok | call_dead].
  do 2 call_ok.
  destruct (map2 mul s1 (map1 neg (map1 log s2))) as [m3|] eqn:E5; cbn [mbind option_bind];
    [call_ok | call_dead].
  destruct (map2 add m2 m3) as [a|] eqn:E6; cbn [mbind option_bind];
    [call_ok | call_dead].
  call_ok. now rewrite !logged_logged.
Qed.

End BceFacts.

Section ReduceFacts.

Lemma reduce_loss_ok (red : string) (t : tensor) (out : option loc) (s : state) :
  _reduce_loss red t None out s
  = (Ok (delivered out (Spec.reduce red t) (logged s (reduce_events red))).1,
     (delivered out (Spec.reduce red t) (logged s (reduce_events red))).2).
Proof. rewrite reduce_loss_run. apply deliver_run. Qed.

(** Whatever the mode and the buffer, the helper returns, and the array
    it hands back holds the reduction. *)
Lemma reduce_loss_returns (red : string) (t : tensor) (out : option loc) (s : state) :
  exists a s',
    _reduce_loss red t None out s = (Ok a, s')
    /\ contents s' a = Some (Spec.reduce red t)
    /\ (forall l, out = Some l -> a = Buffer l /\ heap s' !! l = Some (Spec.reduce red t)).
Proof.
  eexists _, _. split; [apply reduce_loss_ok|]. split.
  - apply delivered_contents.
  - intros l ->. apply delivered_buffer.
Qed.

Lemma reduce_none (t : tensor) : Spec.reduce "none" t = t.
Proof. reflexivity. Qed.

(** A one-entry tensor keeps its entry under every mode. *)
Lemma reduce_single (red : string) (t : tensor) (x : scalar) :
  data t = [x] -> numel t = 1%nat -> data (Spec.reduce red t) = [x].
Proof.
  intros Hd Hn. unfold Spec.reduce, sum_data.
  destruct (String.eqb red "sum"); [|destruct (String.eqb red "mean")].
  - cbn. now rewrite Hd, sum_singleton.
  - cbn. now rewrite Hd, Hn, sum_singleton, div_count_one.
  - exact Hd.
Qed.

Lemma mean_keepdims_single (red : string) (t : tensor) :
  data (Spec.reduce red (mean_keepdims t)) = [average t].
Proof. apply reduce_single; [reflexivity | apply numel_mean_keepdims]. Qed.

End ReduceFacts.

(** ** The worked example *)

Ltac eval_run :=
  cbv -[Rplus Rminus Rmult Rdiv Ropp Rinv Rabs IZR INR app logged].

(** C1: the docstring of [mse_loss] gives 0.1075 for true=[1,2,3,4],
    pred=[0.9,2.1,2.8,4.2] under the default reduction "mean".  The code
    does not return it: the value [m] it returns on that input, the mean
    of the squared differences, is further than 0.05 from 0.1075, and so
    is [- m]. *)
Lemma C1_mse_example_is_not_01075 :
  exists m s,
    mse_loss true_ex pred_ex "mean" None s_init = (Ok (Fresh (of_scalar (Fin m))), s)
    /\ 0.05 < Rabs (m - 0.1075)
    /\ 0.05 < Rabs (- m - 0.1075).
Proof.
  eexists _, _. split; [|split].
  - eval_run. reflexivity.
  - cbn [INR].
    match goal with |- _ < Rabs ?e => replace e with (Ropp 0.0825) by lra end.
    rewrite Rabs_Ropp, Rabs_pos_eq; lra.
  - cbn [INR].
    match goal with |- _ < Rabs ?e => replace e with (Ropp 0.1325) by lra end.
    rewrite Rabs_Ropp, Rabs_pos_eq; lra.
Qed.

(** ** Structure of [mse_loss] and [mae_loss] *)

Section MeanThenReduce.

(** Both functions, seen through the elementwise function they apply to
    the difference. *)
Lemma mean_then_reduce (f : scalar -> scalar) (loss : tensor -> tensor -> string -> option loc -> M array)
    (es : list event) :
  (forall true_ pred red out s, red ∈ reductions ->
     loss true_ pred red out s
     = match map2 sub true_ pred with
       | Some d => _reduce_loss red (mean_keepdims (map1 f d)) None out (logged s es)
       | None => (Raise ShapeError, logged s [EvSub])
       end) ->
  forall true_ pred red out s, red ∈ reductions ->
    match Spec.keepdims_mean_of f true_ pred with
    | Some m =>
        exists a s',
          loss true_ pred red out s = (Ok a, s')
          /\ contents s' a = Some (Spec.reduce red m)
          /\ (forall l, out = Some l -> a = Buffer l /\ heap s' !! l = Some (Spec.reduce red m))
    | None =>
        exists s', loss true_ pred red out s = (Raise ShapeError, s')
    end.
Proof.
  intros Hrun true_ pred red out s Hred. rewrite (Hrun _ _ _ _ _ Hred).
  unfold Spec.keepdims_mean_of.
  destruct (map2 sub true_ pred) as [d|]; cbn [mbind option_bind].
  - apply reduce_loss_returns.
  - eexists; reflexivity.
Qed.

Lemma mse_mean_then_reduce (true_ pred : tensor) (red : string) (out : option loc) (s : state) :
  red ∈ reductions ->
  match Spec.keepdims_mean_of square true_ pred with
  | Some m =>
      exists a s',
        mse_loss true_ pred red out s = (Ok a, s')
        /\ contents s' a = Some (Spec.reduce red m)
        /\ (forall l, out = Some l -> a = Buffer l /\ heap s' !! l = Some (Spec.reduce red m))
  | None => exists s', mse_loss true_ pred red out s = (Raise ShapeError, s')
  end.
Proof.
  apply (mean_then_reduce square mse_loss [EvSub; EvSquare; EvMean]).
  intros; now apply mse_loss_run.
Qed.

Lemma mae_mean_then_reduce (true_ pred : tensor) (red : string) (out : option loc) (s : state) :
  red ∈ reductions ->
  match Spec.keepdims_mean_of abs true_ pred with
  | Some m =>
      exists a s',
        mae_loss true_ pred red out s = (Ok a, s')
        /\ contents s' a = Some (Spec.reduce red m)
        /\ (forall l, out = Some l -> a = Buffer l /\ heap s' !! l = Some (Spec.reduce red m))
  | None => exists s', mae_loss true_ pred red out s = (Raise ShapeError, s')
  end.
Proof.
  apply (mean_then_reduce abs mae_loss [EvSub; EvAbs; EvMean]).
  intros; now apply mae_loss_run.
Qed.

(** The first stage always has exactly one entry, and every axis of
    length one. *)
Lemma keepdims_mean_of_single (f : scalar -> scalar) (true_ pred m : tensor) :
  Spec.keepdims_mean_of f true_ pred = Some m ->
  exists d, map2 sub true_ pred = Some d
            /\ data m = [average (map1 f d)]
            /\ shape m = map (fun _ => 1%nat) (shape d).
Proof.
  unfold Spec.keepdims_mean_of.
  destruct (map2 sub true_ pred) as [d|]; cbn [mbind option_bind]; [|discriminate].
  intros [= <-]. exists d. repeat split.
Qed.

End MeanThenReduce.

(** C2: [mse_loss] takes the mean of the elementwise squared difference
    over all entries, every axis kept with length one, and applies the
    requested reduction to that mean; reduction "none" hands back that
    one-entry mean itself.  [mae_loss] does the same with the absolute
    difference.  Operands that do not broadcast raise instead. *)
Theorem C2_mean_keepdims_then_reduce (true_ pred : tensor) (red : string)
    (out : option loc) (s : state) :
  red ∈ reductions ->
  match Spec.keepdims_mean_of square true_ pred with
  | Some m =>
      (exists d, map2 sub true_ pred = Some d /\ data m = [average (map1 square d)])
      /\ exists a s',
          mse_loss true_ pred red out s = (Ok a, s')
          /\ contents s' a = Some (Spec.reduce red m)
          /\ (red = "none"%string -> contents s' a = Some m)
  | None => exists s', mse_loss true_ pred red out s = (Raise ShapeError, s')
  end
  /\ match Spec.keepdims_mean_of abs true_ pred with
     | Some m =>
         (exists d, map2 sub true_ pred = Some d /\ data m = [average (map1 abs d)])
         /\ exists a s',
             mae_loss true_ pred red out s = (Ok a, s')
             /\ contents s' a = Some (Spec.reduce red m)
             /\ (red = "none"%string -> contents s' a = Some m)
     | None => exists s', mae_loss true_ pred red out s = (Raise ShapeError, s')
     end.
Proof.
  intros Hred. split.
  - pose proof (mse_mean_then_reduce true_ pred red out s Hred) as H.
    destruct (Spec.keepdims_mean_of square true_ pred) as [m|] eqn:Em; [|exact H].
    split.
    + destruct (keepdims_mean_of_single _ _ _ _ Em) as (d & Hd & Hm & _); eauto.
    + destruct H as (a & s' & Hrun & Hc & _). exists a, s'.
      split; [exact Hrun|]. split; [exact Hc|]. intros ->. exact Hc.
  - pose proof (mae_mean_then_reduce true_ pred red out s Hred) as H.
    destruct (Spec.keepdims_mean_of abs true_ pred) as [m|] eqn:Em; [|exact H].
    split.
    + destruct (keepdims_mean_of_single _ _ _ _ Em) as (d & Hd & Hm & _); eauto.
    + destruct H as (a & s' & Hrun & Hc & _). exists a, s'.
      split; [exact Hrun|]. split; [exact Hc|]. intros ->. exact Hc.
Qed.

Lemma C2_mean_keepdims_then_reduce_witness :
  "none"%string ∈ reductions
  /\ exists a s',
      mse_loss true_ex pred_ex "none" None s_init = (Ok a, s')
      /\ exists m, contents s' a = Some m /\ length (data m) = 1%nat.
Proof.
  assert (Hred : "none"%string ∈ reductions) by (apply (bool_decide_unpack _); vm_compute; exact I).
  split; [exact Hred|].
  pose proof (C2_mean_keepdims_then_reduce true_ex pred_ex "none" None s_init Hred) as [H _].
  change (Spec.keepdims_mean_of square true_ex pred_ex)
    with (Some (mean_keepdims (map1 square
            (mkTensor [4%nat] [Fin (1 - 0.9); Fin (2 - 2.1); Fin (3 - 2.8); Fin (4 - 4.2)])))) in H.
  destruct H as (_ & a & s' & Hrun & _ & Hnone).
  exists a, s'. split; [exact Hrun|].
  eexists. split; [apply Hnone; reflexivity | reflexivity].
Defined.

(** ** Validation *)

(** C6: with a reduction string outside {"none", "sum", "mean"}, each of
    the three functions raises a value error and leaves the state as it
    found it: no backend call is logged, no buffer is written, and no
    result is returned. *)
Theorem C6_invalid_reduction_fails_first (prim : prim_t) (f : loss_fn)
    (true_ pred : tensor) (red : string) (out : option loc) (s : state) :
  red ∉ reductions ->
  run_loss prim f true_ pred red out s = (Raise ValueError, s).
Proof.
  intros H.
  destruct f as [epsilon pos_weight| |]; cbn [run_loss];
    unfold binary_cross_entropy_with_logits, mse_loss, mae_loss;
    apply bind_raise, check_fail, H.
Qed.

Lemma C6_invalid_reduction_fails_first_witness :
  ("median"%string ∉ reductions)
  /\ run_loss reference_bce MSE true_ex pred_ex "median" (Some 1%positive) s_init
     = (Raise ValueError, s_init).
Proof.
  assert (H : "median"%string ∉ reductions) by (apply (bool_decide_unpack _); vm_compute; exact I).
  split; [exact H|].
  exact (C6_invalid_reduction_fails_first reference_bce MSE true_ex pred_ex
           "median" (Some 1%positive) s_init H).
Defined.

(** ** The unweighted case *)

(** C5: without a positive weight, [binary_cross_entropy_with_logits]
    is the unweighted primitive applied to the labels and to
    [sigmoid pred], with the same epsilon, reduction and output buffer.
    The only backend call made before the primitive takes over is the
    sigmoid: the probabilities are handed over unclipped. *)
Theorem C5_unweighted_delegates (prim : prim_t) (true_ pred : tensor)
    (epsilon : R) (red : string) (out : option loc) (s : state) :
  red ∈ reductions ->
  binary_cross_entropy_with_logits prim true_ pred epsilon None red out s
  = prim true_ (map1 sigmoid pred) epsilon red out
      (mkState (heap s) (trace s ++ [EvSigmoid])).
Proof. apply bce_unweighted_run. Qed.

Lemma C5_unweighted_delegates_witness :
  "sum"%string ∈ reductions
  /\ binary_cross_entropy_with_logits reference_bce true_ex pred_ex 0.5 None "sum" None s_init
     = reference_bce true_ex (map1 sigmoid pred_ex) 0.5 "sum" None
         (mkState ∅ [EvSigmoid]).
Proof.
  assert (H : "sum"%string ∈ reductions) by (apply (bool_decide_unpack _); vm_compute; exact I).
  split; [exact H|].
  exact (C5_unweighted_delegates reference_bce true_ex pred_ex 0.5 "sum" None s_init H).
Defined.

(** ** All modes of [mse_loss] and [mae_loss] agree *)

Section OneEntry.

Lemma one_entry_all_modes (f : scalar -> scalar)
    (loss : tensor -> tensor -> string -> option loc -> M array) :
  (forall true_ pred red out s, red ∈ reductions ->
     match Spec.keepdims_mean_of f true_ pred with
     | Some m =>
         exists a s',
           loss true_ pred red out s = (Ok a, s')
           /\ contents s' a = Some (Spec.reduce red m)
           /\ (forall l, out = Some l -> a = Buffer l /\ heap s' !! l = Some (Spec.reduce red m))
     | None => exists s', loss true_ pred red out s = (Raise ShapeError, s')
     end) ->
  forall true_ pred out s,
    (exists x,
       forall red, red ∈ reductions ->
         exists a s' v,
           loss true_ pred red out s = (Ok a, s')
           /\ contents s' a = Some v /\ data v = [x])
    \/ (forall red, red ∈ reductions ->
          exists s', loss true_ pred red out s = (Raise ShapeError, s')).
Proof.
  intros Hloss true_ pred out s.
  destruct (Spec.keepdims_mean_of f true_ pred) as [m|] eqn:Em.
  - left. destruct (keepdims_mean_of_single _ _ _ _ Em) as (d & Hd & Hm & Hs).
    exists (average (map1 f d)). intros red Hred.
    specialize (Hloss true_ pred red out s Hred). rewrite Em in Hloss.
    destruct Hloss as (a & s' & Hrun & Hc & _).
    exists a, s', (Spec.reduce red m). repeat split; try assumption.
    apply reduce_single; [exact Hm|].
    unfold numel. rewrite Hs. apply prod_shape_map_one.
  - right. intros red Hred.
    specialize (Hloss true_ pred red out s Hred). now rewrite Em in Hloss.
Qed.

End OneEntry.

(** C10: for every pair of inputs, [mse_loss] returns the same single
    value under "none", "sum" and "mean": the array it hands back always
    has exactly one entry, the mean over all entries, never one entry per
    input element.  When the operands do not broadcast it raises under
    all three.  The same holds for [mae_loss]. *)
Theorem C10_all_modes_agree (true_ pred : tensor) (out : option loc) (s : state) :
  ((exists x,
      forall red, red ∈ reductions ->
        exists a s' v,
          mse_loss true_ pred red out s = (Ok a, s')
          /\ contents s' a = Some v /\ data v = [x])
   \/ (forall red, red ∈ reductions ->
         exists s', mse_loss true_ pred red out s = (Raise ShapeError, s')))
  /\ ((exists x,
         forall red, red ∈ reductions ->
           exists a s' v,
             mae_loss true_ pred red out s = (Ok a, s')
             /\ contents s' a = Some v /\ data v = [x])
      \/ (forall red, red ∈ reductions ->
            exists s', mae_loss true_ pred red out s = (Raise ShapeError, s'))).
Proof.
  split.
  - apply (one_entry_all_modes square mse_loss). apply mse_mean_then_reduce.
  - apply (one_entry_all_modes abs mae_loss). apply mae_mean_then_reduce.
Qed.

Lemma C10_all_modes_agree_witness :
  exists x,
    forall red, red ∈ reductions ->
      exists a s' v,
        mse_loss true_ex pred_ex red None s_init = (Ok a, s')
        /\ contents s' a = Some v /\ data v = [x].
Proof.
  destruct (C10_all_modes_agree true_ex pred_ex None s_init) as [[H|H] _]; [exact H|].
  destruct (H "none"%string none_valid) as [s' Hs].
  discriminate Hs.
Defined.

(** ** Equal inputs *)

Section EqualInputs.

Lemma zip_sub_self (l : list scalar) :
  Forall is_fin l -> Forall (fun x => x = Fin 0) (zip_with sub l l).
Proof.
  induction 1 as [|a l [x ->] _ IH]; cbn [zip_with]; constructor; [|exact IH].
  cbn [sub]. f_equal. lra.
Qed.

Lemma map_zeros (f : scalar -> scalar) (l : list scalar) :
  f (Fin 0) = Fin 0 ->
  Forall (fun x => x = Fin 0) l -> Forall (fun x => x = Fin 0) (map f l).
Proof.
  intros Hf. induction 1 as [|a l -> _ IH]; cbn [map]; constructor; assumption.
Qed.

Lemma square_zero : square (Fin 0) = Fin 0.
Proof. cbn [square]. f_equal. lra. Qed.

Lemma average_zeros (t : tensor) :
  numel t <> 0%nat -> Forall (fun x => x = Fin 0) (data t) -> average t = Fin 0.
Proof.
  intros Hn Hz. unfold average, sum_data. rewrite sum_zeros by exact Hz.
  now apply div_count_zero.
Qed.

Lemma sq_diff_self (t : tensor) :
  wf t -> finite t ->
  exists d, map2 sub t t = Some d
            /\ shape d = shape t
            /\ Forall (fun x => x = Fin 0) (data (map1 square d)).
Proof.
  intros Hwf Hfin. eexists. split; [now apply map2_same_shape|].
  split; [reflexivity|]. cbn [map1 data].
  apply map_zeros; [apply square_zero | now apply zip_sub_self].
Qed.

End EqualInputs.

(** C7, as stated, fails on three kinds of tensor: the one with no
    entries, where the mean is undefined; one that holds the undefined
    value; and one that holds an infinity, since [inf - inf] is
    undefined.  On each of them [mse_loss t t] returns the undefined
    value, not zero. *)
Lemma C7_undefined_results_are_not_zero :
  ("none"%string ∈ reductions)
  /\ wf empty_vec /\ wf (mkTensor [1%nat] [NaN]) /\ wf (mkTensor [1%nat] [Inf true])
  /\ (exists s',
        mse_loss empty_vec empty_vec "none" None s_init
        = (Ok (Fresh (mkTensor [1%nat] [NaN])), s'))
  /\ (exists s',
        mse_loss (mkTensor [1%nat] [NaN]) (mkTensor [1%nat] [NaN]) "none" None s_init
        = (Ok (Fresh (mkTensor [1%nat] [NaN])), s'))
  /\ (exists s',
        mse_loss (mkTensor [1%nat] [Inf true]) (mkTensor [1%nat] [Inf true])
          "none" None s_init
        = (Ok (Fresh (mkTensor [1%nat] [NaN])), s'))
  /\ ~ Forall (fun x => x = Fin 0) [NaN].
Proof.
  split; [apply (bool_decide_unpack _); vm_compute; exact I|].
  do 3 (split; [reflexivity|]).
  do 3 (split; [eexists; reflexivity|]).
  intros H. apply Forall_inv in H. discriminate H.
Qed.

(** C7, amended: for every well-formed tensor [t] that has at least one
    entry, all of them finite numbers (neither undefined nor infinite),
    and every valid reduction mode, [mse_loss t t] returns an array
    whose single entry is zero. *)
Theorem C7_mse_of_equal_inputs_is_zero (t : tensor) (red : string)
    (out : option loc) (s : state) :
  wf t -> finite t -> numel t <> 0%nat -> red ∈ reductions ->
  exists a s' v,
    mse_loss t t red out s = (Ok a, s')
    /\ contents s' a = Some v
    /\ data v = [Fin 0].
Proof.
  intros Hwf Hfin Hn Hred.
  destruct (sq_diff_self t Hwf Hfin) as (d & Hd & Hs & Hz).
  pose proof (mse_mean_then_reduce t t red out s Hred) as H.
  unfold Spec.keepdims_mean_of in H. rewrite Hd in H. cbn [mbind option_bind] in H.
  destruct H as (a & s' & Hrun & Hc & _).
  exists a, s', (Spec.reduce red (mean_keepdims (map1 square d))).
  split; [exact Hrun|]. split; [exact Hc|].
  rewrite mean_keepdims_single. f_equal.
  apply average_zeros; [|exact Hz].
  unfold numel, map1. cbn [shape]. rewrite Hs. exact Hn.
Qed.

Lemma vec_wf (l : list R) : wf (vec l).
Proof. unfold wf, numel, vec. cbn. rewrite length_map. lia. Qed.

Lemma vec_finite (l : list R) : finite (vec l).
Proof.
  unfold finite, vec. cbn [data]. induction l as [|x l IH]; constructor; [|exact IH].
  now exists x.
Qed.

Lemma C7_mse_of_equal_inputs_is_zero_witness :
  wf true_ex /\ finite true_ex /\ numel true_ex <> 0%nat
  /\ ("sum"%string ∈ reductions)
  /\ exists a s' v,
      mse_loss true_ex true_ex "sum" None s_init = (Ok a, s')
      /\ contents s' a = Some v
      /\ data v = [Fin 0].
Proof.
  assert (Hred : "sum"%string ∈ reductions) by (apply (bool_decide_unpack _); vm_compute; exact I).
  assert (Hn : numel true_ex <> 0%nat) by (vm_compute; discriminate).
  split; [apply vec_wf|]. split; [apply vec_finite|]. split; [exact Hn|].
  split; [exact Hred|].
  exact (C7_mse_of_equal_inputs_is_zero true_ex "sum" None s_init
           (vec_wf _) (vec_finite _) Hn Hred).
Defined.

(** ** Computations that end in the reduction helper *)

Section Pipelines.

Lemma reduces_to_returns run loss red out s :
  reduces_to run loss -> red ∈ reductions ->
  exists a s',
    run red out s = (Ok a, s')
    /\ contents s' a = Some (Spec.reduce red loss)
    /\ (forall l, out = Some l -> a = Buffer l /\ heap s' !! l = Some (Spec.reduce red loss)).
Proof.
  intros Hrun Hred. destruct (Hrun red out s Hred) as [es ->].
  apply reduce_loss_returns.
Qed.

Lemma reduces_to_consistent run loss out s a s' v :
  reduces_to run loss ->
  run "none"%string out s = (Ok a, s') -> contents s' a = Some v ->
  (exists a1 s1, run "sum"%string out s = (Ok a1, s1)
                 /\ contents s1 a1 = Some (Spec.reduce "sum" v))
  /\ (exists a2 s2, run "mean"%string out s = (Ok a2, s2)
                    /\ contents s2 a2 = Some (Spec.reduce "mean" v)).
Proof.
  intros Hrun Hnone Hv.
  destruct (reduces_to_returns run loss "none" out s Hrun none_valid)
    as (a0 & s0 & H0 & Hc0 & _).
  rewrite Hnone in H0. injection H0 as <- <-.
  rewrite Hv in Hc0. injection Hc0 as ->.
  split.
  - destruct (reduces_to_returns run loss "sum" out s Hrun sum_valid)
      as (a1 & s1 & H1 & Hc1 & _). eauto.
  - destruct (reduces_to_returns run loss "mean" out s Hrun mean_valid)
      as (a2 & s2 & H2 & Hc2 & _). eauto.
Qed.

Lemma fails_shape_never_returns run red out s a s' :
  fails_shape run -> red ∈ reductions -> run red out s = (Ok a, s') -> False.
Proof.
  intros Hrun Hred H. destruct (Hrun red out s Hred) as [es Hes].
  rewrite Hes in H. discriminate H.
Qed.

(** Every case but the delegated one is of one of the two kinds. *)
Lemma run_loss_pipeline (prim : prim_t) (f : loss_fn) (true_ pred : tensor) :
  (forall epsilon, f <> BCE epsilon None) ->
  (exists loss, reduces_to (run_loss prim f true_ pred) loss)
  \/ fails_shape (run_loss prim f true_ pred).
Proof.
  intros Hf. destruct f as [epsilon [pw|]| |]; cbn [run_loss].
  - destruct (Spec.weighted_loss true_ (Spec.clipped_sigmoid epsilon pred) pw)
      as [loss|] eqn:E.
    + left. exists loss. intros red out s Hred.
      pose proof (bce_weighted_run prim true_ pred pw epsilon red out s Hred) as H.
      rewrite E in H. eauto.
    + right. intros red out s Hred.
      pose proof (bce_weighted_run prim true_ pred pw epsilon red out s Hred) as H.
      now rewrite E in H.
  - now destruct (Hf epsilon).
  - destruct (map2 sub true_ pred) as [d|] eqn:E.
    + left. eexists. intros red out s Hred.
      rewrite mse_loss_run, E by exact Hred. eauto.
    + right. intros red out s Hred.
      rewrite mse_loss_run, E by exact Hred. eauto.
  - destruct (map2 sub true_ pred) as [d|] eqn:E.
    + left. eexists. intros red out s Hred.
      rewrite mae_loss_run, E by exact Hred. eauto.
    + right. intros red out s Hred.
      rewrite mae_loss_run, E by exact Hred. eauto.
Qed.

End Pipelines.

(** ** Reduction consistency and the output buffer *)

Section UnderContract.

Variable prim : prim_t.

Lemma run_loss_rejects (f : loss_fn) (true_ pred : tensor)
    (red : string) (out : option loc) (s : state) :
  red ∉ reductions -> run_loss prim f true_ pred red out s = (Raise ValueError, s).
Proof.
  intros H. destruct f as [epsilon pos_weight| |]; cbn [run_loss];
    unfold binary_cross_entropy_with_logits, mse_loss, mae_loss;
    apply bind_raise, check_fail, H.
Qed.

Lemma consistent_under_contract (f : loss_fn)
    (true_ pred : tensor) (out : option loc) (s : state)
    (a : array) (s' : state) (v : tensor) :
  Spec.reduction_contract prim ->
  run_loss prim f true_ pred "none" out s = (Ok a, s') ->
  contents s' a = Some v ->
  (exists a1 s1,
      run_loss prim f true_ pred "sum" out s = (Ok a1, s1)
      /\ contents s1 a1 = Some (Spec.reduce "sum" v))
  /\ (exists a2 s2,
        run_loss prim f true_ pred "mean" out s = (Ok a2, s2)
        /\ contents s2 a2 = Some (Spec.reduce "mean" v)).
Proof.
  intros Hprim Hnone Hv.
  destruct f as [epsilon [pw|]| |].
  - destruct (run_loss_pipeline prim (BCE epsilon (Some pw)) true_ pred)
      as [[loss Hto]|Hfail]; [discriminate| |].
    + eapply reduces_to_consistent; eauto.
    + destruct (fails_shape_never_returns _ _ _ _ _ _ Hfail none_valid Hnone).
  - cbn [run_loss] in *.
    rewrite bce_unweighted_run in Hnone by exact none_valid.
    rewrite !bce_unweighted_run by (exact sum_valid || exact mean_valid).
    eapply Hprim; eauto.
  - destruct (run_loss_pipeline prim MSE true_ pred)
      as [[loss Hto]|Hfail]; [discriminate| |].
    + eapply reduces_to_consistent; eauto.
    + destruct (fails_shape_never_returns _ _ _ _ _ _ Hfail none_valid Hnone).
  - destruct (run_loss_pipeline prim MAE true_ pred)
      as [[loss Hto]|Hfail]; [discriminate| |].
    + eapply reduces_to_consistent; eauto.
    + destruct (fails_shape_never_returns _ _ _ _ _ _ Hfail none_valid Hnone).
Qed.

Lemma buffer_under_contract (f : loss_fn)
    (true_ pred : tensor) (red : string) (l : loc) (s : state)
    (a : array) (s' : state) :
  Spec.out_contract prim ->
  run_loss prim f true_ pred red (Some l) s = (Ok a, s') ->
  a = Buffer l /\ is_Some (heap s' !! l).
Proof.
  intros Hprim Hrun.
  destruct (decide (red ∈ reductions)) as [Hred|Hred];
    [|rewrite run_loss_rejects in Hrun by exact Hred; discriminate Hrun].
  assert (Hgen : forall run loss,
            reduces_to run loss -> run red (Some l) s = (Ok a, s') ->
            a = Buffer l /\ is_Some (heap s' !! l)).
  { intros run loss Hto H.
    destruct (reduces_to_returns run loss red (Some l) s Hto Hred)
      as (a0 & s0 & H0 & Hc & Hbuf).
    rewrite H in H0. injection H0 as <- <-.
    destruct (Hbuf l eq_refl) as [Ha Hl]. split; [exact Ha|]. now rewrite Hl. }
  destruct f as [epsilon [pw|]| |].
  - destruct (run_loss_pipeline prim (BCE epsilon (Some pw)) true_ pred)
      as [[loss Hto]|Hfail]; [discriminate|eauto|].
    destruct (fails_shape_never_returns _ _ _ _ _ _ Hfail Hred Hrun).
  - cbn [run_loss] in Hrun. rewrite bce_unweighted_run in Hrun by exact Hred.
    exact (Hprim _ _ _ _ _ _ _ _ Hrun).
  - destruct (run_loss_pipeline prim MSE true_ pred)
      as [[loss Hto]|Hfail]; [discriminate|eauto|].
    destruct (fails_shape_never_returns _ _ _ _ _ _ Hfail Hred Hrun).
  - destruct (run_loss_pipeline prim MAE true_ pred)
      as [[loss Hto]|Hfail]; [discriminate|eauto|].
    destruct (fails_shape_never_returns _ _ _ _ _ _ Hfail Hred Hrun).
Qed.

End UnderContract.

Section UnweightedPrimitive.

Variable entries : tensor -> tensor -> R -> M tensor.

(** The primitive computes its per-element loss, whatever the mode and
    the buffer, and hands it to the reduction helper. *)
Lemma binary_cross_entropy_run (true_ p : tensor) (epsilon : R) (red : string)
    (out : option loc) (s : state) :
  binary_cross_entropy entries true_ p epsilon red out s
  = match entries true_ p epsilon s with
    | (Ok loss, s1) => _reduce_loss red loss None out s1
    | (Raise e, s1) => (Raise e, s1)
    end.
Proof. reflexivity. Qed.

Lemma binary_cross_entropy_reduction_contract :
  Spec.reduction_contract (binary_cross_entropy entries).
Proof.
  intros true_ p epsilon out s a s' v Hnone Hv.
  rewrite binary_cross_entropy_run in Hnone. rewrite !binary_cross_entropy_run.
  destruct (entries true_ p epsilon s) as [[loss|e] s1]; [|discriminate Hnone].
  destruct (reduce_loss_returns "none" loss out s1) as (a0 & s0 & H0 & C0 & _).
  rewrite Hnone in H0. injection H0 as <- <-.
  rewrite Hv, reduce_none in C0. injection C0 as ->.
  split.
  - destruct (reduce_loss_returns "sum" loss out s1) as (a1 & s1' & H1 & C1 & _). eauto.
  - destruct (reduce_loss_returns "mean" loss out s1) as (a2 & s2' & H2 & C2 & _). eauto.
Qed.

Lemma binary_cross_entropy_out_contract :
  Spec.out_contract (binary_cross_entropy entries).
Proof.
  intros true_ p epsilon red l s a s' Hrun.
  rewrite binary_cross_entropy_run in Hrun.
  destruct (entries true_ p epsilon s) as [[loss|e] s1]; [|discriminate Hrun].
  destruct (reduce_loss_returns red loss (Some l) s1) as (a0 & s0 & H0 & _ & Hbuf).
  rewrite Hrun in H0. injection H0 as <- <-.
  destruct (Hbuf l eq_refl) as [-> Hl]. split; [reflexivity|]. now rewrite Hl.
Qed.

End UnweightedPrimitive.

(** C3: for each of the three functions, the unweighted case included,
    whenever the call with reduction "none" returns a tensor [v], the
    call with "sum" on the same inputs returns the sum of all entries of
    [v], and the call with "mean" returns that sum divided by the number
    of entries of [v]. *)
Theorem C3_reduction_consistency (entries : tensor -> tensor -> R -> M tensor)
    (f : loss_fn) (true_ pred : tensor) (out : option loc) (s : state)
    (a : array) (s' : state) (v : tensor) :
  run_loss (binary_cross_entropy entries) f true_ pred "none" out s = (Ok a, s') ->
  contents s' a = Some v ->
  (exists a1 s1,
      run_loss (binary_cross_entropy entries) f true_ pred "sum" out s = (Ok a1, s1)
      /\ contents s1 a1 = Some (of_scalar (sum_data v)))
  /\ (exists a2 s2,
        run_loss (binary_cross_entropy entries) f true_ pred "mean" out s = (Ok a2, s2)
        /\ contents s2 a2 = Some (of_scalar (div_count (sum_data v) (numel v)))).
Proof.
  intros Hnone Hv.
  exact (consistent_under_contract _ f true_ pred out s a s' v
           (binary_cross_entropy_reduction_contract entries) Hnone Hv).
Qed.

Lemma C3_reduction_consistency_witness :
  exists a s' v,
    run_loss (binary_cross_entropy textbook_entries) (BCE 0.25 None)
      (vec [0; 1]) (vec [2; 3]) "none" None s_init = (Ok a, s')
    /\ contents s' a = Some v
    /\ length (data v) = 2%nat
    /\ exists a1 s1,
        run_loss (binary_cross_entropy textbook_entries) (BCE 0.25 None)
          (vec [0; 1]) (vec [2; 3]) "sum" None s_init = (Ok a1, s1)
        /\ contents s1 a1 = Some (of_scalar (sum_data v)).
Proof.
  eexists _, _, _. split; [reflexivity|]. split; [reflexivity|]. split; [reflexivity|].
  exact (proj1 (C3_reduction_consistency textbook_entries (BCE 0.25 None)
                  (vec [0; 1]) (vec [2; 3]) None s_init _ _ _ eq_refl eq_refl)).
Defined.

(** C8: for each of the three functions, the unweighted case included, a
    call with an output buffer that returns hands back that very buffer,
    so the contents of the buffer after the call are the value returned;
    the buffer is filled whatever it held before. *)
Theorem C8_buffer_holds_result (entries : tensor -> tensor -> R -> M tensor)
    (f : loss_fn) (true_ pred : tensor) (red : string) (l : loc) (s : state)
    (a : array) (s' : state) :
  run_loss (binary_cross_entropy entries) f true_ pred red (Some l) s = (Ok a, s') ->
  (exists v, heap s' !! l = Some v /\ contents s' a = Some v)
  /\ a = Buffer l.
Proof.
  intros Hrun.
  destruct (buffer_under_contract _ f true_ pred red l s a s'
              (binary_cross_entropy_out_contract entries) Hrun) as [-> [v Hv]].
  split; [|reflexivity]. exists v. split; exact Hv.
Qed.

Lemma C8_buffer_holds_result_witness :
  exists a s',
    run_loss (binary_cross_entropy textbook_entries) (BCE 0.25 None)
      (vec [0; 1]) (vec [2; 3]) "none" (Some 1%positive) s_init = (Ok a, s')
    /\ (exists v, heap s' !! 1%positive = Some v /\ contents s' a = Some v
                  /\ length (data v) = 2%nat)
    /\ a = Buffer 1%positive.
Proof.
  eexists _, _. split; [reflexivity|].
  destruct (C8_buffer_holds_result textbook_entries (BCE 0.25 None)
              (vec [0; 1]) (vec [2; 3]) "none" 1%positive s_init _ _ eq_refl)
    as [[v [Hl Hc]] Ha].
  split; [|exact Ha]. exists v. split; [exact Hl|]. split; [exact Hc|].
  cbn in Hl. rewrite lookup_insert_eq in Hl. injection Hl as <-. reflexivity.
Defined.

(** ** The weighted case *)

Section Weighted.

Lemma weighted_entries (dt dp dw : list scalar) :
  map neg
    (zip_with add
       (zip_with mul (zip_with mul dt (map neg (map log dp))) dw)
       (zip_with mul (map (sub (Fin 1)) dt)
          (map neg (map log (map (sub (Fin 1)) dp)))))
  = Spec.zip3_with Spec.weighted_entry dt dp dw.
Proof.
  revert dp dw; induction dt as [|t dt IH]; intros dp dw; [reflexivity|].
  destruct dp as [|p dp]; [reflexivity|].
  destruct dw as [|w dw]; [reflexivity|].
  cbn [map zip_with Spec.zip3_with]. now rewrite IH.
Qed.

End Weighted.


Section WeightedBroadcast.

Lemma lifts_of_broadcast_l (a b c : list nat) (t : tensor) :
  wf t -> shape t = a -> broadcast_shapes a b = Some c -> lifts c t (broadcast_to c t).
Proof.
  intros W <- H. destruct (broadcast_shapes_spec _ _ _ H) as (Hl & Ca & _).
  repeat split; try assumption. lia.
Qed.

Lemma lifts_of_broadcast_r (a b c : list nat) (t : tensor) :
  wf t -> shape t = b -> broadcast_shapes a b = Some c -> lifts c t (broadcast_to c t).
Proof.
  intros W <- H. destruct (broadcast_shapes_spec _ _ _ H) as (Hl & _ & Cb).
  repeat split; try assumption. lia.
Qed.

Lemma lifts_weaken (sh1 sh : list nat) (t : tensor) (l : list scalar) :
  lifts sh1 t l -> (length sh1 <= length sh)%nat ->
  compat (pad_shape (length sh) sh1) sh ->
  lifts sh t (broadcast_to sh t).
Proof.
  intros (W & L & C & _) HL HC. repeat split; try assumption; [lia|].
  eapply compat_trans; [|exact HC].
  rewrite (pad_shape_split (length sh1) (length sh) (shape t)) by assumption.
  rewrite (pad_shape_split (length sh1) (length sh) sh1), pad_shape_same by auto.
  now apply compat_prefix.
Qed.

Lemma map2_undefined (f : scalar -> scalar -> scalar) (t1 t2 : tensor) :
  broadcast_shapes (shape t1) (shape t2) = None -> map2 f t1 t2 = None.
Proof. intros H. unfold map2. now rewrite H. Qed.

Lemma map2_defined (f : scalar -> scalar -> scalar) (t1 t2 : tensor) (sh : list nat) :
  broadcast_shapes (shape t1) (shape t2) = Some sh ->
  map2 f t1 t2 = Some (mkTensor sh (zip_with f (broadcast_to sh t1) (broadcast_to sh t2))).
Proof. intros H. unfold map2. now rewrite H. Qed.

Lemma zip_with_ones_l (f : scalar -> scalar -> scalar) (x : scalar) (n : nat)
    (l : list scalar) :
  length l = n -> zip_with f (repeat x n) l = map (f x) l.
Proof. intros <-. apply zip_with_repeat_l. Qed.

(** The weighted loss on operands of any shapes: defined exactly when the
    three shapes broadcast, and then, seen in the common shape, it is the
    entry formula at every position. *)
Lemma weighted_loss_broadcast (true_ p pos_weight : tensor) :
  wf true_ -> wf p -> wf pos_weight ->
  Spec.weighted_loss true_ p pos_weight
  = match broadcast_shapes3 (shape true_) (shape p) (shape pos_weight) with
    | Some sh =>
        Some (mkTensor sh
                (Spec.zip3_with Spec.weighted_entry
                   (broadcast_to sh true_) (broadcast_to sh p) (broadcast_to sh pos_weight)))
    | None => None
    end.
Proof.
  intros Wt Wp Ww. unfold broadcast_shapes3, Spec.weighted_loss.
  destruct (broadcast_shapes (shape true_) (shape p)) as [sh1|] eqn:E1; cbn [mbind option_bind].
  2:{ now rewrite (map2_undefined mul true_ (map1 neg (map1 log p)) E1). }
  destruct (broadcast_shapes sh1 (shape pos_weight)) as [sh|] eqn:E2.
  2:{ rewrite (map2_defined mul true_ (map1 neg (map1 log p)) sh1 E1).
      cbn [mbind option_bind].
      now rewrite (map2_undefined mul (mkTensor sh1 _) pos_weight E2). }
  destruct (broadcast_shapes_spec _ _ _ E2) as (HlS & CS1 & _).
  assert (Lt : lifts sh true_ (broadcast_to sh true_)).
  { eapply lifts_weaken; [eapply (lifts_of_broadcast_l _ _ _ _ Wt eq_refl E1)| lia |exact CS1]. }
  assert (Lp : lifts sh p (broadcast_to sh p)).
  { eapply lifts_weaken; [eapply (lifts_of_broadcast_r _ _ _ _ Wp eq_refl E1)| lia |exact CS1]. }
  assert (Lw : lifts sh pos_weight (broadcast_to sh pos_weight))
    by exact (lifts_of_broadcast_r _ _ _ _ Ww eq_refl E2).
  set (lt := broadcast_to sh true_) in *.
  set (lp := broadcast_to sh p) in *.
  set (lw := broadcast_to sh pos_weight) in *.
  pose proof (lifts_length _ _ _ Lt) as Hlt.
  pose proof (lifts_length _ _ _ Lp) as Hlp.
  destruct (map2_lifts mul sh _ _ _ _ Lt (lifts_map1 neg _ _ _ (lifts_map1 log _ _ _ Lp)))
    as (M1 & EM1 & LM1 & _).
  destruct (map2_lifts mul sh _ _ _ _ LM1 Lw) as (M2 & EM2 & LM2 & _).
  destruct (map2_lifts sub sh _ _ _ _ (lifts_one sh) Lt) as (S1t & ES1 & LS1 & _).
  destruct (map2_lifts sub sh _ _ _ _ (lifts_one sh) Lp) as (S2t & ES2 & LS2 & _).
  destruct (map2_lifts mul sh _ _ _ _ LS1 (lifts_map1 neg _ _ _ (lifts_map1 log _ _ _ LS2)))
    as (M3 & EM3 & LM3 & _).
  destruct (map2_lifts add sh _ _ _ _ LM2 LM3) as (Ad & EA & LA & HsA).
  rewrite EM1. cbn [mbind option_bind]. rewrite EM2. cbn [mbind option_bind].
  rewrite ES1. cbn [mbind option_bind]. rewrite ES2. cbn [mbind option_bind].
  rewrite EM3. cbn [mbind option_bind]. rewrite EA. cbn [mbind option_bind].
  assert (HM2 : shape M2 = sh).
  { apply map2_shape in EM1, EM2. cbn [shape map1] in EM1.
    rewrite E1 in EM1. injection EM1 as EM1. rewrite <- EM1, E2 in EM2.
    now injection EM2. }
  specialize (HsA HM2).
  pose proof (lifts_map1 neg _ _ _ LA) as (Wr & _ & _ & Br).
  f_equal. destruct Ad as [sA dA]. cbn [shape] in HsA. subst sA.
  unfold map1 in *. cbn [shape data] in *. f_equal.
  pose proof (broadcast_to_same _ Wr) as Hs. cbn [shape data] in Hs.
  rewrite <- Hs, Br.
  rewrite !zip_with_ones_l by assumption.
  apply weighted_entries.
Qed.

End WeightedBroadcast.

(** C4: with a positive weight supplied and a valid reduction,
    [binary_cross_entropy_with_logits] clips [sigmoid pred] with the
    bounds [epsilon] and [1 - epsilon], computes
    [-(true * -log p * pos_weight + (1 - true) * -log (1 - p))] with the
    elementwise, broadcasting operators, and applies the reduction to
    that tensor; operands that do not broadcast raise.  On well-formed
    operands the tensor reduced has the common shape of the three
    operands and, at every position, the entry
    [-(t * -log p * w + (1 - t) * -log (1 - p))] of the operands
    broadcast to that shape. *)
Theorem C4_weighted_cross_entropy (prim : prim_t) (true_ pred pos_weight : tensor)
    (epsilon : R) (red : string) (out : option loc) (s : state) :
  red ∈ reductions ->
  let p := Spec.clipped_sigmoid epsilon pred in
  data p = map (fun x => clip epsilon (1 - epsilon) (sigmoid x)) (data pred)
  /\ match Spec.weighted_loss true_ p pos_weight with
     | Some loss =>
         binary_cross_entropy_with_logits prim true_ pred epsilon (Some pos_weight) red out s
         = _reduce_loss red loss None out (logged s weighted_events)
         /\ exists a s',
             binary_cross_entropy_with_logits prim true_ pred epsilon (Some pos_weight) red out s
             = (Ok a, s')
             /\ contents s' a = Some (Spec.reduce red loss)
     | None =>
         exists s',
           binary_cross_entropy_with_logits prim true_ pred epsilon (Some pos_weight) red out s
           = (Raise ShapeError, s')
     end
  /\ (wf true_ -> wf pred -> wf pos_weight ->
      Spec.weighted_loss true_ p pos_weight
      = match broadcast_shapes3 (shape true_) (shape pred) (shape pos_weight) with
        | Some sh =>
            Some (mkTensor sh
                    (Spec.zip3_with Spec.weighted_entry
                       (broadcast_to sh true_) (broadcast_to sh p)
                       (broadcast_to sh pos_weight)))
        | None => None
        end).
Proof.
  intros Hred p. split; [|split].
  - unfold p, Spec.clipped_sigmoid, map1. cbn [data]. apply map_map.
  - pose proof (bce_weighted_run prim true_ pred pos_weight epsilon red out s Hred) as H.
    fold p in H.
    destruct (Spec.weighted_loss true_ p pos_weight) as [loss|].
    + split; [exact H|]. rewrite H.
      destruct (reduce_loss_returns red loss out (logged s weighted_events))
        as (a & s' & Hrun & Hc & _). eauto.
    + destruct H as [es H]. eauto.
  - intros Wt Wp Ww.
    apply (weighted_loss_broadcast true_ p pos_weight); try assumption.
    unfold p, Spec.clipped_sigmoid. now do 2 apply wf_map1.
Qed.

Lemma C4_weighted_cross_entropy_witness :
  ("none"%string ∈ reductions)
  /\ wf (vec [0; 1]) /\ wf (vec [2; 3]) /\ wf (vec [1.5])
  /\ exists a s',
      binary_cross_entropy_with_logits reference_bce (vec [0; 1]) (vec [2; 3]) 0.25
        (Some (vec [1.5])) "none" None s_init = (Ok a, s')
      /\ contents s' a
         = Some (mkTensor [2%nat]
                   (Spec.zip3_with Spec.weighted_entry
                      [Fin 0; Fin 1]
                      (data (Spec.clipped_sigmoid 0.25 (vec [2; 3])))
                      [Fin 1.5; Fin 1.5])).
Proof.
  split; [exact none_valid|].
  split; [apply vec_wf|]. split; [apply vec_wf|]. split; [apply vec_wf|].
  pose proof (C4_weighted_cross_entropy reference_bce (vec [0; 1]) (vec [2; 3])
                (vec [1.5]) 0.25 "none" None s_init none_valid) as (_ & H & Hshape).
  rewrite (Hshape (vec_wf _) (vec_wf _) (vec_wf _)) in H.
  destruct H as (_ & a & s' & Hrun & Hc). exists a, s'. split; [exact Hrun|exact Hc].
Defined.

(** * Further properties of the three functions *)

(** ** The shape of the result *)

Section ResultShape.

Lemma map_const_one (sh : list nat) : map (fun _ => 1%nat) sh = repeat 1%nat (length sh).
Proof. induction sh as [|a sh IH]; cbn; [reflexivity | now rewrite IH]. Qed.

Lemma reduce_shape (red : string) (t : tensor) :
  red ∈ reductions ->
  shape (Spec.reduce red t) = if String.eqb red "none" then shape t else [].
Proof.
  intros H. destruct (reductions_cases red H) as [-> | [-> | ->]]; reflexivity.
Qed.

Lemma mean_loss_shape (f : scalar -> scalar)
    (loss : tensor -> tensor -> string -> option loc -> M array) (es : list event) :
  (forall true_ pred red out s, red ∈ reductions ->
     loss true_ pred red out s
     = match map2 sub true_ pred with
       | Some d => _reduce_loss red (mean_keepdims (map1 f d)) None out (logged s es)
       | None => (Raise ShapeError, logged s [EvSub])
       end) ->
  forall true_ pred red out s, red ∈ reductions ->
    match broadcast_shapes (shape true_) (shape pred) with
    | Some sh =>
        exists a s' v,
          loss true_ pred red out s = (Ok a, s')
          /\ contents s' a = Some v
          /\ shape v = (if String.eqb red "none" then repeat 1%nat (length sh) else [])
    | None => loss true_ pred red out s = (Raise ShapeError, logged s [EvSub])
    end.
Proof.
  intros Hrun true_ pred red out s Hred. rewrite Hrun by exact Hred.
  destruct (broadcast_shapes (shape true_) (shape pred)) as [sh|] eqn:E.
  - rewrite (map2_defined sub true_ pred sh E).
    destruct (reduce_loss_returns red
                (mean_keepdims (map1 f (mkTensor sh
                   (zip_with sub (broadcast_to sh true_) (broadcast_to sh pred)))))
                out (logged s es)) as (a & s' & Hr & Hc & _).
    eexists a, s', _. split; [exact Hr|]. split; [exact Hc|].
    rewrite reduce_shape by exact Hred. cbn [mean_keepdims map1 shape].
    now rewrite map_const_one.
  - now rewrite (map2_undefined sub true_ pred E).
Qed.

End ResultShape.

(** Called without an output buffer, [mse_loss] and [mae_loss] return
    exactly when the shapes of the two operands broadcast, and raise
    otherwise with nothing but the subtraction attempted.  The new array
    they return keeps the rank of the common shape, every axis of length
    one, under "none" and has rank zero under "sum" and "mean"; the rank
    kept is the larger of the two operand ranks. *)
Theorem mean_losses_result_shape (true_ pred : tensor) (red : string) (s : state) :
  red ∈ reductions ->
  match broadcast_shapes (shape true_) (shape pred) with
  | Some sh =>
      length sh = Nat.max (length (shape true_)) (length (shape pred))
      /\ (exists s' v,
            mse_loss true_ pred red None s = (Ok (Fresh v), s')
            /\ shape v = (if String.eqb red "none" then repeat 1%nat (length sh) else []))
      /\ (exists s' v,
            mae_loss true_ pred red None s = (Ok (Fresh v), s')
            /\ shape v = (if String.eqb red "none" then repeat 1%nat (length sh) else []))
  | None =>
      mse_loss true_ pred red None s = (Raise ShapeError, logged s [EvSub])
      /\ mae_loss true_ pred red None s = (Raise ShapeError, logged s [EvSub])
  end.
Proof.
  intros Hred.
  pose proof (mean_loss_shape square mse_loss _ mse_loss_run true_ pred red None s Hred) as H1.
  pose proof (mean_loss_shape abs mae_loss _ mae_loss_run true_ pred red None s Hred) as H2.
  assert (Hfresh : forall (loss : tensor -> tensor -> string -> option loc -> M array) sh,
            (exists a s' v,
                loss true_ pred red None s = (Ok a, s')
                /\ contents s' a = Some v
                /\ shape v = sh) ->
            (forall r, loss true_ pred red None s = r ->
               match r.1 with Ok (Buffer _) => False | _ => True end) ->
            exists s' v, loss true_ pred red None s = (Ok (Fresh v), s') /\ shape v = sh).
  { intros loss sh (a & s' & v & Hr & Hc & Hs) Hb.
    specialize (Hb _ Hr). destruct a as [t|l]; [|destruct Hb].
    cbn in Hc. injection Hc as ->. eauto. }
  assert (Hnb : forall (loss : tensor -> tensor -> string -> option loc -> M array)
                  (f : scalar -> scalar) es,
            (forall t p r o s0, r ∈ reductions ->
               loss t p r o s0
               = match map2 sub t p with
                 | Some d => _reduce_loss r (mean_keepdims (map1 f d)) None o (logged s0 es)
                 | None => (Raise ShapeError, logged s0 [EvSub])
                 end) ->
            forall r, loss true_ pred red None s = r ->
              match r.1 with Ok (Buffer _) => False | _ => True end).
  { intros loss f es Hrun r <-. rewrite Hrun by exact Hred.
    destruct (map2 sub true_ pred) as [d|]; [|exact I].
    rewrite reduce_loss_ok. exact I. }
  destruct (broadcast_shapes (shape true_) (shape pred)) as [sh|] eqn:E.
  - split; [now destruct (broadcast_shapes_spec _ _ _ E)|]. split.
    + apply Hfresh; [exact H1 | exact (Hnb mse_loss square _ mse_loss_run)].
    + apply Hfresh; [exact H2 | exact (Hnb mae_loss abs _ mae_loss_run)].
  - split; assumption.
Qed.

Lemma mean_losses_result_shape_witness :
  ("none"%string ∈ reductions)
  /\ exists s' v,
      mse_loss (mkTensor [2; 1]%nat [Fin 1; Fin 2]) (mkTensor [3]%nat [Fin 1; Fin 2; Fin 3])
        "none" None s_init = (Ok (Fresh v), s')
      /\ shape v = [1; 1]%nat.
Proof.
  split; [exact none_valid|].
  exact (proj1 (proj2 (mean_losses_result_shape
                         (mkTensor [2; 1]%nat [Fin 1; Fin 2])
                         (mkTensor [3]%nat [Fin 1; Fin 2; Fin 3])
                         "none" s_init none_valid))).
Defined.

(** ** The store *)

Section Store.

Lemma not_delegated (f : loss_fn) :
  is_delegated f = false -> forall epsilon, f <> BCE epsilon None.
Proof. intros H epsilon ->. discriminate H. Qed.

Lemma delivered_heap (out : option loc) (t : tensor) (s : state) (es : list event) :
  heap (delivered out t (logged s es)).2
  = match out with
    | Some l => <[l := t]> (heap s)
    | None => heap s
    end.
Proof. destruct out; reflexivity. Qed.

End Store.

(** Apart from the delegated, unweighted case, a call touches no array
    but the output buffer, and that one only when it returns: a call
    that raises leaves every array as it was, a call without [out]
    too, and a call with [out] changes that buffer alone, to the value
    it returns. *)
Theorem only_the_buffer_is_written (prim : prim_t) (f : loss_fn)
    (true_ pred : tensor) (red : string) (out : option loc) (s : state)
    (r : outcome array) (s' : state) :
  is_delegated f = false ->
  run_loss prim f true_ pred red out s = (r, s') ->
  match r with
  | Ok a =>
      exists v,
        contents s' a = Some v
        /\ heap s' = match out with
                     | Some l => <[l := v]> (heap s)
                     | None => heap s
                     end
  | Raise _ => heap s' = heap s
  end.
Proof.
  intros Hf Hrun.
  destruct (decide (red ∈ reductions)) as [Hred|Hred].
  - destruct (run_loss_pipeline prim f true_ pred (not_delegated f Hf))
      as [[loss Hto]|Hfail].
    + destruct (Hto red out s Hred) as [es Hes].
      rewrite Hes, reduce_loss_ok in Hrun. injection Hrun as <- <-.
      exists (Spec.reduce red loss). split; [apply delivered_contents|].
      rewrite logged_logged. apply delivered_heap.
    + destruct (Hfail red out s Hred) as [es Hes].
      rewrite Hes in Hrun. injection Hrun as <- <-. reflexivity.
  - rewrite run_loss_rejects in Hrun by exact Hred.
    injection Hrun as <- <-. reflexivity.
Qed.

Lemma only_the_buffer_is_written_witness :
  is_delegated MSE = false
  /\ exists a s',
      run_loss reference_bce MSE true_ex pred_ex "mean" (Some 2%positive)
        (mkState {[1%positive := true_ex]} []) = (Ok a, s')
      /\ exists v,
          contents s' a = Some v
          /\ heap s' = <[2%positive := v]> {[1%positive := true_ex]}.
Proof.
  split; [reflexivity|].
  eexists _, _. split; [reflexivity|].
  exact (only_the_buffer_is_written reference_bce MSE true_ex pred_ex "mean"
           (Some 2%positive) (mkState {[1%positive := true_ex]} []) _ _ eq_refl eq_refl).
Defined.

(** ** No smoothing *)

Section NoSmoothing.




End NoSmoothing.


